(** * A Monte-Carlo tree search engine (MCTS.py), embedded in Rocq

    The Python module keeps a tree of mutually referencing objects: a
    [TreeNode] lists its outgoing [TreeEdge]s in [children] and points
    back to the edge that produced it in [parent_edge]; a [TreeEdge]
    points to its [parent] and [child] nodes and carries the statistics
    [prior], [visit_count] and [value].  Every method mutates these
    objects in place.

    The embedding keeps the objects in a store: two finite maps from
    object identities (natural numbers) to records, with an allocation
    counter each.  Methods become computations in a state monad whose
    state is the store; a Python exception is an outcome of the
    computation, and the store keeps whatever was written before the
    exception was raised, as in Python. *)

From stdpp Require Import gmap list.
From Stdlib Require Import QArith Floats.

Local Open Scope nat_scope.

(** ** Numbers

    [value], [prior], rewards and scores are Python numbers (in practice
    floats).  The development is generic in the arithmetic: every
    statement below holds for whichever operations instantiate
    [Number], and no algebraic law is used unless a theorem lists it as
    a hypothesis.  [sqrt], [exp] and [np_sum] are numpy's [np.sqrt],
    [np.exp] and the [sum] of an array.  [leb] is the comparison [<=];
    on floats it is false as soon as one of its arguments is NaN, so
    that [leb a a = false] says that [a] is NaN. *)

Class Number (num : Type) := {
  of_nat : nat -> num;
  add : num -> num -> num;
  sub : num -> num -> num;
  mul : num -> num -> num;
  div : num -> num -> num;
  sqrt : num -> num;
  exp : num -> num;
  np_sum : list num -> num;
  leb : num -> num -> bool;
}.

(** ** Exceptions and outcomes *)

Inductive exn :=
| AssertionError   (* a failed [assert] *)
| ValueError       (* numpy: arg-max or choice over an empty sequence *)
| IndexError       (* list index out of range *)
| OutOfFuel        (* the bound on a loop or on the recursion depth was hit *)
| InvalidRef.      (* an identity with no object behind it; no Python
                      reference is ever in that state *)

Inductive outcome (A : Type) :=
| Ok (a : A)
| Raise (e : exn).
Arguments Ok {A} a.
Arguments Raise {A} e.

(** ** The collaborators

    [TreeNode] is an abstract class and the repository has no concrete
    variant; the opponent and numpy's random source are external as
    well.  Each is an interface here.  [St] is what a concrete node
    stores about its state, [player] the type of [node_turn]. *)

Class Game (num St player : Type) := {
  (* get_available_child_nodes: the states of the freshly built child
     nodes, each with its prior *)
  available : St -> list (St * num);
  node_turn : St -> player;
  get_reward : St -> player -> num;
  (* __eq__ of the concrete variant *)
  node_eq : St -> St -> bool;
}.

(** Modelled from the spec: the opponent (no implementation in the
    repository).  "Given a node, return a new node representing its
    chosen response - deterministic or internally randomized":
    [opponent_turn i st] is the state of the new node that answers a
    node in the state [st], where [i] counts the random events so far
    (see [draws] below), so that the answer may change from call to
    call. *)
Class Opponent (St : Type) := {
  opponent_turn : nat -> St -> St;
}.

(** numpy's random source: [random_choice i p k] is the index that
    [np.random.choice] draws among [k] items under the weights [p]
    ([None] for the uniform draw) when [i] random events came before.
    It is reduced modulo [k] where it is used, so that every instance
    draws within range. *)
Class RandomSource (num : Type) := {
  random_choice : nat -> option (list num) -> nat -> nat;
}.

(** ** Objects *)

Record TreeEdge {num : Type} := mkTreeEdge {
  prior : num;
  visit_count : nat;
  value : num;
  parent : nat;
  child : nat;
}.
Arguments TreeEdge : clear implicits.
Arguments mkTreeEdge {num} prior visit_count value parent child.

(** [payload] stands for the attributes of the concrete variant. *)
Record TreeNode {St : Type} := mkTreeNode {
  parent_edge : option nat;
  children : list nat;
  payload : St;
}.
Arguments TreeNode : clear implicits.
Arguments mkTreeNode {St} parent_edge children payload.

(** The store: every [TreeNode] and [TreeEdge] object alive, the [root]
    field of the [MonteCarloTree], and the number of random events so
    far: the draws from numpy's random source and the replies of the
    opponent. *)
Record store {num St : Type} := mkStore {
  nodes : gmap nat (TreeNode St);
  edges : gmap nat (TreeEdge num);
  next_node : nat;
  next_edge : nat;
  root : nat;
  draws : nat;
}.
Arguments store : clear implicits.
Arguments mkStore {num St} nodes edges next_node next_edge root draws.

Section Engine.

Context {num St player : Type}.
Context {NumberOps : Number num} {G : Game num St player}.
Context {Opp : Opponent St} {Rnd : RandomSource num}.

Local Abbreviation TreeEdge := (TreeEdge num).
Local Abbreviation TreeNode := (TreeNode St).
Local Abbreviation store := (store num St).

(** ** The monad

    A computation takes a store and returns the store it leaves
    together with its outcome.  Where Python loops or recurses, the
    computation takes a bound [fuel] and raises [OutOfFuel] when the
    bound is hit. *)

Definition M (A : Type) : Type := store -> store * outcome A.

Definition ret {A} (a : A) : M A := fun s => (s, Ok a).
Definition raise {A} (e : exn) : M A := fun s => (s, Raise e).
Definition bind {A B} (m : M A) (k : A -> M B) : M B :=
  fun s => match m s with
           | (s', Ok a) => k a s'
           | (s', Raise e) => (s', Raise e)
           end.

Notation "x <- m ;; k" := (bind m (fun x => k))
  (at level 100, m at next level, right associativity).
Notation "m ;;; k" := (bind m (fun _ => k))
  (at level 100, right associativity).

(** ** Primitive accesses *)

Definition read_node (n : nat) : M TreeNode :=
  fun s => match nodes s !! n with
           | Some nd => (s, Ok nd)
           | None => (s, Raise InvalidRef)
           end.

Definition read_edge (e : nat) : M TreeEdge :=
  fun s => match edges s !! e with
           | Some ed => (s, Ok ed)
           | None => (s, Raise InvalidRef)
           end.

Definition set_nodes (f : gmap nat TreeNode -> gmap nat TreeNode) (s : store) : store :=
  mkStore (f (nodes s)) (edges s) (next_node s) (next_edge s) (root s) (draws s).

Definition set_edges (f : gmap nat TreeEdge -> gmap nat TreeEdge) (s : store) : store :=
  mkStore (nodes s) (f (edges s)) (next_node s) (next_edge s) (root s) (draws s).

Definition write_node (n : nat) (nd : TreeNode) : M unit :=
  fun s => (set_nodes (insert n nd) s, Ok tt).

Definition write_edge (e : nat) (ed : TreeEdge) : M unit :=
  fun s => (set_edges (insert e ed) s, Ok tt).

(** A new object identity, with no attributes yet. *)
Definition alloc_node : M nat :=
  fun s => (mkStore (nodes s) (edges s) (S (next_node s)) (next_edge s) (root s) (draws s),
            Ok (next_node s)).

Definition alloc_edge : M nat :=
  fun s => (mkStore (nodes s) (edges s) (next_node s) (S (next_edge s)) (root s) (draws s),
            Ok (next_edge s)).

(** [TreeNode.__init__(parent_edge)] of a concrete variant with state [st]. *)
Definition TreeNode_init (pe : option nat) (st : St) : M nat :=
  n <- alloc_node ;;
  write_node n (mkTreeNode pe [] st) ;;;
  ret n.

(** [TreeEdge.__init__(prior, parent, child)]. *)
Definition TreeEdge_init (p : num) (par ch : nat) : M nat :=
  e <- alloc_edge ;;
  write_edge e (mkTreeEdge p 0 (of_nat 0) par ch) ;;;
  ret e.

(** Attribute assignments. *)
Definition set_value (e : nat) (v : num) : M unit :=
  ed <- read_edge e ;;
  write_edge e (mkTreeEdge (prior ed) (visit_count ed) v (parent ed) (child ed)).

Definition set_visit_count (e : nat) (c : nat) : M unit :=
  ed <- read_edge e ;;
  write_edge e (mkTreeEdge (prior ed) c (value ed) (parent ed) (child ed)).

Definition set_parent_edge (n : nat) (pe : option nat) : M unit :=
  nd <- read_node n ;;
  write_node n (mkTreeNode pe (children nd) (payload nd)).

Definition set_children (n : nat) (ch : list nat) : M unit :=
  nd <- read_node n ;;
  write_node n (mkTreeNode (parent_edge nd) ch (payload nd)).

(** ** TreeEdge.update *)

Fixpoint update (fuel : nat) (e : nat) (reward : num) : M unit :=
  match fuel with
  | 0 => raise OutOfFuel
  | S fuel' =>
      ed <- read_edge e ;;
      set_value e (add (value ed) reward) ;;;
      ed <- read_edge e ;;
      set_visit_count e (visit_count ed + 1) ;;;
      ed <- read_edge e ;;
      p <- read_node (parent ed) ;;
      match parent_edge p with
      | Some pe => update fuel' pe reward
      | None => ret tt
      end
  end.

(** ** TreeNode *)

(** Modelled from the spec: [get_available_child_nodes] of a concrete
    variant "lists every legal action from this state as a freshly
    constructed child node paired with a prior weight"; the node of an
    action is built with no parent edge, which [expand] sets. *)
Fixpoint build_nodes (l : list (St * num)) : M (list (nat * num)) :=
  match l with
  | [] => ret []
  | (st, p) :: l' =>
      c <- TreeNode_init None st ;;
      r <- build_nodes l' ;;
      ret ((c, p) :: r)
  end.

Definition get_available_child_nodes (n : nat) : M (list (nat * num)) :=
  nd <- read_node n ;;
  build_nodes (available (payload nd)).

(** The loop of [expand]. *)
Fixpoint expand_loop (n : nat) (available_children : list (nat * num)) : M unit :=
  match available_children with
  | [] => ret tt
  | (new_node, new_prior) :: rest =>
      new_edge <- TreeEdge_init new_prior n new_node ;;
      set_parent_edge new_node (Some new_edge) ;;;
      nd <- read_node n ;;
      set_children n (children nd ++ [new_edge]) ;;;
      expand_loop n rest
  end.

Definition expand (n : nat) : M unit :=
  nd <- read_node n ;;
  if length (children nd) =? 0 then
    available_children <- get_available_child_nodes n ;;
    expand_loop n available_children
  else raise AssertionError.

Definition is_terminal (n : nat) : M bool :=
  nd <- read_node n ;;
  ret (length (children nd) =? 0).

(** [is_finish] asks for the legal actions and counts them; the nodes
    that the enumeration builds for the count are dropped at once and
    are not kept in the store. *)
Definition is_finish (n : nat) : M bool :=
  nd <- read_node n ;;
  ret (length (available (payload nd)) =? 0).

(** ** softmax

    [np.max] keeps the running maximum [m] while [m >= y] or [m] is
    NaN, and takes [y] otherwise: a NaN, once met, is the result. *)

Definition np_max (x : list num) : outcome num :=
  match x with
  | [] => Raise ValueError
  | a :: l =>
      Ok (fold_left (fun m y => if leb y m || negb (leb m m) then m else y) l a)
  end.

Definition softmax (x : list num) : outcome (list num) :=
  match np_max x with
  | Raise e => Raise e
  | Ok m =>
      let e_x := map (fun a => exp (sub a m)) x in
      let total := np_sum e_x in
      Ok (map (fun a => div a total) e_x)
  end.

Definition lift {A} (o : outcome A) : M A := fun s => (s, o).

(** ** MonteCarloTree *)

(** The default exploration coefficient, [.3]. *)
Definition default_c : num := div (of_nat 3) (of_nat 10).

Definition edge_criteria (edge : nat) (c : num) : M num :=
  ed <- read_edge edge ;;
  let exploit_term := div (value ed) (of_nat (1 + visit_count ed)) in
  p <- read_node (parent ed) ;;
  parent_visit_count <-
    match parent_edge p with
    | None => ret 0
    | Some pe => ped <- read_edge pe ;; ret (visit_count ped)
    end ;;
  let explore_term :=
    div (mul (mul c (prior ed)) (sqrt (of_nat parent_visit_count)))
        (of_nat (1 + visit_count ed)) in
  ret (add exploit_term explore_term).

(** A list comprehension over edges. *)
Fixpoint for_each {A} (f : nat -> M A) (l : list nat) : M (list A) :=
  match l with
  | [] => ret []
  | x :: l' => a <- f x ;; r <- for_each f l' ;; ret (a :: r)
  end.

(** [np.argmax], as numpy runs it over floats: the running maximum
    [best] is replaced by [x] when [x <= best] fails, and the scan
    stops at the first NaN, whose index is the result. *)
Fixpoint argmax_from (best : num) (best_idx idx : nat) (l : list num) : nat :=
  match l with
  | [] => best_idx
  | x :: l' =>
      if leb x best then argmax_from best best_idx (S idx) l'
      else if leb x x then argmax_from x idx (S idx) l'
      else idx
  end.

Definition argmax (l : list num) : outcome nat :=
  match l with
  | [] => Raise ValueError
  | x :: l' => Ok (if leb x x then argmax_from x 0 1 l' else 0)
  end.

Definition index {A} (l : list A) (i : nat) : M A :=
  match l !! i with
  | Some a => ret a
  | None => raise IndexError
  end.

Definition average (c : nat) : M num :=
  ed <- read_edge c ;;
  ret (div (value ed) (of_nat (1 + visit_count ed))).

Definition get_root : M nat := fun s => (s, Ok (root s)).

Definition turn (node : nat) : M nat :=
  r <- get_root ;;
  rn <- read_node r ;;
  nn <- read_node node ;;
  if node_eq (payload rn) (payload nn) then
    averages <- for_each average (children rn) ;;
    action_idx <- lift (argmax averages) ;;
    action <- index (children rn) action_idx ;;
    aed <- read_edge action ;;
    set_children (child aed) [] ;;;
    ret (child aed)
  else raise AssertionError.

(** The store after one more random event. *)
Definition drawn (s : store) : store :=
  mkStore (nodes s) (edges s) (next_node s) (next_edge s) (root s) (S (draws s)).

(** A random event happens: its number. *)
Definition random_event : M nat := fun s => (drawn s, Ok (draws s)).

(** [np.random.choice(items, p=weights)]. *)
Definition choice (p : option (list num)) (items : list nat) : M nat :=
  fun s =>
    match items with
    | [] => (s, Raise ValueError)
    | _ =>
        let i := random_choice (draws s) p (length items) mod length items in
        index items i (drawn s)
    end.

(** The selection phase of [_fit]. *)
Fixpoint select (fuel : nat) (cur_node : nat) : M nat :=
  match fuel with
  | 0 => raise OutOfFuel
  | S fuel' =>
      leaf <- is_terminal cur_node ;;
      if leaf then ret cur_node
      else
        nd <- read_node cur_node ;;
        scores <- for_each (fun c => edge_criteria c default_c) (children nd) ;;
        weights <- lift (softmax scores) ;;
        action <- choice (Some weights) (children nd) ;;
        aed <- read_edge action ;;
        select fuel' (child aed)
  end.

(** Modelled from the spec: [opponent.turn(node)] builds a new node,
    which the opponent hands over with no parent edge. *)
Definition opponent_reply (n : nat) : M nat :=
  nd <- read_node n ;;
  i <- random_event ;;
  TreeNode_init None (opponent_turn i (payload nd)).

(** The loop after [expand] in [_fit]. *)
Fixpoint fold_opponent (l : list nat) : M unit :=
  match l with
  | [] => ret tt
  | child_edge :: rest =>
      ed <- read_edge child_edge ;;
      let child_node := child ed in
      fin <- is_finish child_node ;;
      (if negb fin then
         grand_child_node <- opponent_reply child_node ;;
         e <- TreeEdge_init (of_nat 1) child_node grand_child_node ;;
         set_children child_node [e]
       else ret tt) ;;;
      fold_opponent rest
  end.

(** ** deepcopy

    [copy.deepcopy] walks every attribute of its argument, keeps the
    copies made so far in a memo keyed by object identity, and enters an
    object in the memo before it copies the object's attributes, in the
    order in which [__init__] has set them.  The attributes of the
    concrete variant are plain values. *)

Record memo := mkMemo {
  memo_nodes : gmap nat nat;
  memo_edges : gmap nat nat;
}.

Fixpoint copy_edges_with (cp : nat -> memo -> M (nat * memo))
    (l : list nat) (m : memo) : M (list nat * memo) :=
  match l with
  | [] => ret ([], m)
  | e :: l' =>
      r <- cp e m ;;
      r' <- copy_edges_with cp l' (snd r) ;;
      ret (fst r :: fst r', snd r')
  end.

Fixpoint copy_node (fuel : nat) (n : nat) (m : memo) : M (nat * memo) :=
  match fuel with
  | 0 => raise OutOfFuel
  | S fuel' =>
      match memo_nodes m !! n with
      | Some n' => ret (n', m)
      | None =>
          nd <- read_node n ;;
          n' <- alloc_node ;;
          let m := mkMemo (<[n := n']> (memo_nodes m)) (memo_edges m) in
          pe <- match parent_edge nd with
                | None => ret (None, m)
                | Some e =>
                    r <- copy_edge fuel' e m ;;
                    ret (Some (fst r), snd r)
                end ;;
          ch <- copy_edges_with (copy_edge fuel') (children nd) (snd pe) ;;
          write_node n' (mkTreeNode (fst pe) (fst ch) (payload nd)) ;;;
          ret (n', snd ch)
      end
  end
with copy_edge (fuel : nat) (e : nat) (m : memo) : M (nat * memo) :=
  match fuel with
  | 0 => raise OutOfFuel
  | S fuel' =>
      match memo_edges m !! e with
      | Some e' => ret (e', m)
      | None =>
          ed <- read_edge e ;;
          e' <- alloc_edge ;;
          let m := mkMemo (memo_nodes m) (<[e := e']> (memo_edges m)) in
          p <- copy_node fuel' (parent ed) m ;;
          c <- copy_node fuel' (child ed) (snd p) ;;
          write_edge e' (mkTreeEdge (prior ed) (visit_count ed) (value ed)
                                    (fst p) (fst c)) ;;;
          ret (e', snd c)
      end
  end.

Definition deepcopy (fuel : nat) (n : nat) : M nat :=
  r <- copy_node fuel n (mkMemo ∅ ∅) ;;
  ret (fst r).

(** ** _fit *)

(** The roll-out loop. *)
Fixpoint roll_out_loop (fuel : nat) (roll_out_node : nat)
    (first_turn opp_turn : bool) : M nat :=
  match fuel with
  | 0 => raise OutOfFuel
  | S fuel' =>
      fin <- is_finish roll_out_node ;;
      if fin then ret roll_out_node
      else if negb opp_turn then
        expand roll_out_node ;;;
        nd <- read_node roll_out_node ;;
        action <- choice None (children nd) ;;
        aed <- read_edge action ;;
        roll_out_loop fuel' (child aed) first_turn (negb opp_turn)
      else if first_turn then
        nd <- read_node roll_out_node ;;
        e0 <- index (children nd) 0 ;;
        ed <- read_edge e0 ;;
        roll_out_loop fuel' (child ed) false (negb opp_turn)
      else
        r <- opponent_reply roll_out_node ;;
        roll_out_loop fuel' r first_turn (negb opp_turn)
  end.

(** The simulation of the roll-out phase: from the choice of
    [sel_action] to the reward that the last line of [_fit] passes to
    [update], together with [sel_action]. *)
Definition simulation (fuel : nat) (sel_node : nat) : M (nat * num) :=
  nd <- read_node sel_node ;;
  sel_action <- choice None (children nd) ;;
  sa <- read_edge sel_action ;;
  let cur_node := child sa in
  roll_out_node <- deepcopy fuel cur_node ;;
  final <- roll_out_loop fuel roll_out_node true true ;;
  fnd <- read_node final ;;
  sn <- read_node sel_node ;;
  ret (sel_action, get_reward (payload fnd) (node_turn (payload sn))).

(** The roll-out phase: the simulation, then the update of [sel_action]. *)
Definition roll_out (fuel : nat) (sel_node : nat) : M unit :=
  r <- simulation fuel sel_node ;;
  update fuel (fst r) (snd r).

(** The expansion phase. *)
Definition expansion (cur_node : nat) : M unit :=
  expand cur_node ;;;
  nd <- read_node cur_node ;;
  fold_opponent (children nd).

Definition _fit (fuel : nat) : M unit :=
  r <- get_root ;;
  cur_node <- select fuel r ;;
  fin <- is_finish cur_node ;;
  if fin then
    nd <- read_node cur_node ;;
    match parent_edge nd with
    | Some pe => update fuel pe (get_reward (payload nd) (node_turn (payload nd)))
    | None => ret tt
    end
  else
    expansion cur_node ;;;
    roll_out fuel cur_node.

Fixpoint fit (fuel : nat) (num_iter : nat) : M unit :=
  match num_iter with
  | 0 => ret tt
  | S k => _fit fuel ;;; fit fuel k
  end.

(** ** traverse *)

(** The loop of [TreeNode.traverse]. *)
Fixpoint traverse_children (tr : nat -> M (list nat)) (l : list nat) : M (list nat) :=
  match l with
  | [] => ret []
  | c :: rest =>
      ed <- read_edge c ;;
      r <- tr (child ed) ;;
      rs <- traverse_children tr rest ;;
      ret (r ++ rs)
  end.

(** [TreeNode.traverse]. *)
Fixpoint traverse (fuel : nat) (n : nat) : M (list nat) :=
  match fuel with
  | 0 => raise OutOfFuel
  | S fuel' =>
      nd <- read_node n ;;
      rest <- traverse_children (traverse fuel') (children nd) ;;
      ret (n :: rest)
  end.

(** [MonteCarloTree.traverse]. *)
Definition tree_traverse (fuel : nat) : M (list nat) :=
  r <- get_root ;;
  traverse fuel r.

End Engine.

(** * Notions used in the statements *)

Section Notions.

Context {num St player : Type}.
Context {NumberOps : Number num} {G : Game num St player}.
Context {Opp : Opponent St} {Rnd : RandomSource num}.

Local Abbreviation TreeEdge := (TreeEdge num).
Local Abbreviation TreeNode := (TreeNode St).
Local Abbreviation store := (store num St).
Local Abbreviation M := (@M num St).

(** ** About update *)

(** What one [update(reward)] does to the statistics of one edge. *)
Definition bump (reward : num) (ed : TreeEdge) : TreeEdge :=
  mkTreeEdge (prior ed) (visit_count ed + 1) (add (value ed) reward)
             (parent ed) (child ed).

(** The edges an update at [e] reaches: [e], the edge into its parent
    node, and so on up to the first node without a parent edge. *)
Fixpoint ancestors (fuel : nat) (s : store) (e : nat) : option (list nat) :=
  match fuel with
  | 0 => None
  | S fuel' =>
      match edges s !! e with
      | None => None
      | Some ed =>
          match nodes s !! parent ed with
          | None => None
          | Some p =>
              match parent_edge p with
              | None => Some [e]
              | Some pe =>
                  match ancestors fuel' s pe with
                  | Some l => Some (e :: l)
                  | None => None
                  end
              end
          end
      end
  end.

(** A sequence of calls [edge.update(reward)]. *)
Fixpoint updates (fuel : nat) (calls : list (nat * num)) : M unit :=
  match calls with
  | [] => ret tt
  | (e, r) :: rest => bind (update fuel e r) (fun _ => updates fuel rest)
  end.

(** The call [e.update(_)] reaches the edge [x], directly or by
    propagation. *)
Definition reaches (fuel : nat) (s : store) (x : nat) (call : nat * num) : bool :=
  match ancestors fuel s (fst call) with
  | Some l => bool_decide (x ∈ l)
  | None => false
  end.

(** ** About edge_criteria and turn *)

(** The visit count of the edge that leads into the parent node of the
    edge [ed], or 0 if that node has no parent edge. *)
Definition parent_visits (s : store) (ed : TreeEdge) : option nat :=
  match nodes s !! parent ed with
  | None => None
  | Some p =>
      match parent_edge p with
      | None => Some 0
      | Some pe => visit_count <$> edges s !! pe
      end
  end.

(** The average value of an edge, as [turn] and [pretty_print] compute it. *)
Definition mean (ed : TreeEdge) : num :=
  div (value ed) (of_nat (1 + visit_count ed)).

(** The numbers of the list [l] are comparable: [<=] is total on them,
    so that none of them is NaN, and transitive.  Floats other than NaN
    are comparable. *)
Definition comparable (l : list num) : Prop :=
  (forall a b, a ∈ l -> b ∈ l -> leb a b = true \/ leb b a = true) /\
  (forall a b c, a ∈ l -> b ∈ l -> c ∈ l ->
     leb a b = true -> leb b c = true -> leb a c = true).

(** [comparable], decided by trying every pair and every triple. *)
Definition comparableb (l : list num) : bool :=
  forallb (fun a => forallb (fun b => leb a b || leb b a) l) l &&
  forallb (fun a => forallb (fun b => forallb (fun c =>
    implb (leb a b && leb b c) (leb a c)) l) l) l.

(** ** About the expansion phase *)

(** The identities [get_available_child_nodes] hands out, from [base] on. *)
Fixpoint number_from (base : nat) (l : list (St * num)) : list (nat * num) :=
  match l with
  | [] => []
  | (_, p) :: l' => (base, p) :: number_from (S base) l'
  end.

(** What the expansion phase leaves at a child node [c] of the expanded
    node, where [e] is the edge into [c] and [st] the state of [c]:
    no children when [c] is finished, and otherwise one edge, of prior
    1, from [c] to a node that holds the reply of the opponent. *)
Definition folded (s : store) (c e : nat) (st : St) : Prop :=
  match available st with
  | [] => nodes s !! c = Some (mkTreeNode (Some e) [] st)
  | _ :: _ =>
      exists g r,
        nodes s !! c = Some (mkTreeNode (Some e) [g] st) /\
        edges s !! g = Some (mkTreeEdge (of_nat 1) 0 (of_nat 0) c r) /\
        exists rn i, nodes s !! r = Some rn /\ payload rn = opponent_turn i st
  end.

(** ** Invariants *)

(** [m] keeps the invariant [I], also when it raises, and its result
    satisfies [Q]. *)
Definition keeps {A} (I : store -> Prop) (m : M A) (Q : A -> Prop) : Prop :=
  forall s, I s -> I (fst (m s)) /\ forall a, snd (m s) = Ok a -> Q a.

(** [s] holds the objects of [s0], no more and no others, and the same
    [root]: the two stores differ at most in the random source. *)
Definition same_objects (s0 s : store) : Prop :=
  nodes s = nodes s0 /\ edges s = edges s0 /\
  next_node s = next_node s0 /\ next_edge s = next_edge s0 /\
  root s = root s0.

(** Every object of the store was made by the store: its identity is
    below the allocation counter. *)
Definition allocated (s : store) : Prop :=
  map_Forall (fun i _ => i < next_node s) (nodes s) /\
  map_Forall (fun j _ => j < next_edge s) (edges s).

(** [allocated], together with lower bounds on the allocation counters. *)
Definition allocated_from (bn be : nat) (s : store) : Prop :=
  allocated s /\ bn <= next_node s /\ be <= next_edge s.

(** ** About the roll-out *)

(** [s] keeps every object that [s0] holds as it is in [s0], and the
    tree's [root] field; it may hold more objects. *)
Definition preserves (s0 s : store) : Prop :=
  next_node s0 <= next_node s /\
  next_edge s0 <= next_edge s /\
  root s = root s0 /\
  (forall i, i < next_node s0 -> nodes s !! i = nodes s0 !! i) /\
  (forall j, j < next_edge s0 -> edges s !! j = edges s0 !! j).

(** The objects of [s] made after [s0] refer downwards only to objects
    made after [s0]. *)
Definition detached (s0 s : store) : Prop :=
  (forall i nd, next_node s0 <= i -> nodes s !! i = Some nd ->
     Forall (fun e => next_edge s0 <= e) (children nd)) /\
  (forall j ed, next_edge s0 <= j -> edges s !! j = Some ed ->
     next_node s0 <= child ed).

(** The invariant of the simulation that starts in the store [s0]. *)
Definition simulating (s0 s : store) : Prop :=
  preserves s0 s /\ detached s0 s.

(** The copies that [deepcopy] has made so far are new objects. *)
Definition memo_new (s0 : store) (m : memo) : Prop :=
  (forall k v, memo_nodes m !! k = Some v -> next_node s0 <= v) /\
  (forall k v, memo_edges m !! k = Some v -> next_edge s0 <= v).

(** ** About training as a whole *)

(** From [s0] to [s] no object was lost, the tree's [root] field is the
    same, every node has kept its state and its parent edge, every edge
    has kept its prior and its two ends, and no visit count has gone
    down. *)
Definition grows (s0 s : store) : Prop :=
  next_node s0 <= next_node s /\
  next_edge s0 <= next_edge s /\
  root s = root s0 /\
  (forall i nd0, i < next_node s0 -> nodes s0 !! i = Some nd0 ->
     exists nd, nodes s !! i = Some nd /\
       payload nd = payload nd0 /\ parent_edge nd = parent_edge nd0) /\
  (forall j ed0, j < next_edge s0 -> edges s0 !! j = Some ed0 ->
     exists ed, edges s !! j = Some ed /\
       prior ed = prior ed0 /\ parent ed = parent ed0 /\ child ed = child ed0 /\
       visit_count ed0 <= visit_count ed).

End Notions.

(** * A concrete instance, for tests

    Exact rational arithmetic.  [sqrt] and [exp] are rounded, as they
    are on floats: the integer square roots of numerator and
    denominator (exact on ratios of perfect squares), and the series of
    the exponential cut after its sixth term. *)

Module Example.

Definition Qsqrt (q : Q) : Q :=
  Qmake (Z.sqrt (Qnum q)) (Z.to_pos (Z.sqrt (Zpos (Qden q)))).

Definition Qexp (q : Q) : Q :=
  (1 + q * (1 + q / 2 * (1 + q / 3 * (1 + q / 4 * (1 + q / 5)))))%Q.

Definition Qleb (a b : Q) : bool :=
  (Qnum a * Zpos (Qden b) <=? Qnum b * Zpos (Qden a))%Z.

#[export] Instance QNumber : Number Q := {|
  of_nat n := inject_Z (Z.of_nat n);
  add := Qplus;
  sub := Qminus;
  mul := Qmult;
  div := Qdiv;
  sqrt := Qsqrt;
  exp := Qexp;
  np_sum l := fold_left Qplus l 0%Q;
  leb := Qleb;
|}.

(** A countdown game: a state is the number of moves left; a move
    takes one or two of them; the game is finished at zero. *)
Definition countdown_available (st : nat) : list (nat * Q) :=
  match st with
  | 0 => []
  | S k => [(k, 1 # 2); (Nat.pred k, 1 # 3)]%Q
  end.

#[export] Instance countdown : Game Q nat bool := {|
  available := countdown_available;
  node_turn st := Nat.even st;
  get_reward st pl := if pl then inject_Z (Z.of_nat st) else (1 # 4)%Q;
  node_eq := Nat.eqb;
|}.

(** The opponent takes one move. *)
#[export] Instance taker : Opponent nat := {| opponent_turn _ := Nat.pred |}.

(** The [i]-th draw is [i], reduced to the range. *)
#[export] Instance counter_source : RandomSource Q := {|
  random_choice i _ _ := i;
|}.

(** A store with a lone root in state [st]. *)
Definition initial (st : nat) : store Q nat :=
  mkStore {[ 0 := mkTreeNode None [] st ]} ∅ 1 0 0 0.

(** The tree after the expansion phase at the root of [initial 3]. *)
Definition expanded : store Q nat := fst (expansion 0 (initial 3)).

(** The tree after three training iterations from [initial 3]. *)
Definition grown : store Q nat := fst (fit 20 3 (initial 3)).

(** Three calls of [update] in [grown]. *)
Definition calls : list (nat * Q) := [(2, (1 # 2)%Q); (0, (1 # 3)%Q); (2, 2%Q)].

(** A root with three children whose average values are 0.2, 0.9 and
    0.5; the second child has children of its own. *)
Definition three_children : store Q nat :=
  mkStore
    {[ 0 := mkTreeNode None [0; 1; 2] 5;
       1 := mkTreeNode (Some 0) [] 4;
       2 := mkTreeNode (Some 1) [3] 3;
       3 := mkTreeNode (Some 2) [] 3;
       4 := mkTreeNode None [] 2 ]}
    {[ 0 := mkTreeEdge (1 # 2)%Q 0 (1 # 5)%Q 0 1;
       1 := mkTreeEdge (1 # 3)%Q 1 (9 # 5)%Q 0 2;
       2 := mkTreeEdge (1 # 3)%Q 0 (1 # 2)%Q 0 3;
       3 := mkTreeEdge 1%Q 0 0%Q 2 4 ]}
    5 4 0 0.

(** The tree after the expansion phase at the root of [initial 1]: both
    children of the root are finished. *)
Definition expanded1 : store Q nat := fst (expansion 0 (initial 1)).

End Example.

(** * A second instance: floats

    The binary64 floats of Rocq, with the operations of IEEE 754 that
    Python and numpy use.  Rocq has no exponential on floats:
    [float_exp] computes one by halving the argument down to at most
    one half, summing the series there and squaring back.  It is exact
    where the tests below rely on it, as [np.exp] is: 1 at 0, and 0
    (underflow) at -1000. *)

Module FloatExample.

Definition float_exp_series (x : float) : float :=
  fold_right (fun k acc => (1 + x / k * acc)%float) 1%float
    (map (fun k => PrimFloat.of_uint63 (Uint63.of_Z (Z.of_nat k))) (seq 1 20)).

Fixpoint float_exp_from (fuel : nat) (x : float) : float :=
  match fuel with
  | 0 => float_exp_series x
  | S fuel' =>
      if PrimFloat.leb (PrimFloat.abs x) 0.5%float then float_exp_series x
      else
        let h := float_exp_from fuel' (x / 2)%float in
        (h * h)%float
  end.

Definition float_exp (x : float) : float :=
  if PrimFloat.eqb x neg_infinity then 0%float else float_exp_from 1100 x.

(** [of_nat] is exact below 2^53, as the conversion of a Python [int]
    to a float is; [np_sum] adds from left to right. *)
#[export] Instance FloatNumber : Number float := {|
  of_nat n := PrimFloat.of_uint63 (Uint63.of_Z (Z.of_nat n));
  add := PrimFloat.add;
  sub := PrimFloat.sub;
  mul := PrimFloat.mul;
  div := PrimFloat.div;
  sqrt := PrimFloat.sqrt;
  exp := float_exp;
  np_sum l := fold_left PrimFloat.add l 0%float;
  leb := PrimFloat.leb;
|}.

(** The countdown game with float priors and rewards. *)
#[export] Instance float_countdown : Game float nat bool := {|
  available st :=
    match st with
    | 0 => []
    | S k => [(k, 0.5%float); (Nat.pred k, 0.25%float)]
    end;
  node_turn st := Nat.even st;
  get_reward st pl := if pl then of_nat st else 0.25%float;
  node_eq := Nat.eqb;
|}.

#[export] Instance float_counter_source : RandomSource float := {|
  random_choice i _ _ := i;
|}.

(** A root with three children whose edges hold the values [v0], [v1]
    and [v2]; the second edge was visited once, the others never. *)
Definition float_children (v0 v1 v2 : float) : store float nat :=
  mkStore
    {[ 0 := mkTreeNode None [0; 1; 2] 5;
       1 := mkTreeNode (Some 0) [] 4;
       2 := mkTreeNode (Some 1) [3] 3;
       3 := mkTreeNode (Some 2) [] 3;
       4 := mkTreeNode None [] 2 ]}
    {[ 0 := mkTreeEdge 0.5%float 0 v0 0 1;
       1 := mkTreeEdge 0.25%float 1 v1 0 2;
       2 := mkTreeEdge 0.25%float 0 v2 0 3;
       3 := mkTreeEdge 1%float 0 0%float 2 4 ]}
    5 4 0 0.


End FloatExample.

(** * Properties *)

Section Proofs.

Context {num St player : Type}.
Context {NumberOps : Number num} {G : Game num St player}.
Context {Opp : Opponent St} {Rnd : RandomSource num}.

Local Abbreviation TreeEdge := (TreeEdge num).
Local Abbreviation TreeNode := (TreeNode St).
Local Abbreviation store := (store num St).
Local Abbreviation M := (@M num St).

Implicit Types (s : store) (ed : TreeEdge) (nd : TreeNode).

(** ** The monad *)

Lemma bind_ok {A B} (m : M A) (k : A -> M B) s s1 a :
  m s = (s1, Ok a) -> bind m k s = k a s1.
Proof. unfold bind. by intros ->. Qed.

Lemma bind_inv {A B} (m : M A) (k : A -> M B) s s' b :
  bind m k s = (s', Ok b) ->
  exists s1 a, m s = (s1, Ok a) /\ k a s1 = (s', Ok b).
Proof.
  unfold bind. destruct (m s) as [s1 [a|e]]; [eauto | discriminate].
Qed.

Lemma read_edge_ok s e ed : edges s !! e = Some ed -> read_edge e s = (s, Ok ed).
Proof. unfold read_edge. by intros ->. Qed.

Lemma read_node_ok s n nd : nodes s !! n = Some nd -> read_node n s = (s, Ok nd).
Proof. unfold read_node. by intros ->. Qed.

(** ** update *)

Lemma ancestors_mono fuel fuel' s e l :
  ancestors fuel s e = Some l -> fuel <= fuel' -> ancestors fuel' s e = Some l.
Proof.
  revert fuel' e l. induction fuel as [|fuel IH]; intros [|fuel'] e l; try done.
  - lia.
  - simpl. intros Hl Hle.
    destruct (edges s !! e) as [ed|]; [|done].
    destruct (nodes s !! parent ed) as [p|]; [|done].
    destruct (parent_edge p) as [pe|]; [|done].
    destruct (ancestors fuel s pe) as [l'|] eqn:Hpe; [|done].
    rewrite (IH fuel' _ _ Hpe); [done|lia].
Qed.

Lemma ancestors_deterministic f1 f2 s e l1 l2 :
  ancestors f1 s e = Some l1 -> ancestors f2 s e = Some l2 -> l1 = l2.
Proof.
  revert f2 e l1 l2. induction f1 as [|f1 IH]; intros [|f2] e l1 l2; try done.
  simpl.
  destruct (edges s !! e) as [ed|]; [|done].
  destruct (nodes s !! parent ed) as [p|]; [|done].
  destruct (parent_edge p) as [pe|]; [|congruence].
  destruct (ancestors f1 s pe) as [l1'|] eqn:H1; [|done].
  destruct (ancestors f2 s pe) as [l2'|] eqn:H2; [|done].
  intros [= <-] [= <-]. f_equal. eauto.
Qed.

Lemma ancestors_suffix fuel s e l x :
  ancestors fuel s e = Some l -> x ∈ l ->
  exists l2, ancestors fuel s x = Some l2 /\ length l2 <= length l.
Proof.
  revert e l. induction fuel as [|fuel IH]; intros e l; [done|].
  intros Hl Hx. pose proof Hl as Hl0. simpl in Hl.
  destruct (edges s !! e) as [ed|]; [|done].
  destruct (nodes s !! parent ed) as [p|]; [|done].
  destruct (parent_edge p) as [pe|].
  - destruct (ancestors fuel s pe) as [l'|] eqn:Hpe; [|done].
    injection Hl as <-. apply elem_of_cons in Hx as [->|Hx]; [eauto|].
    destruct (IH _ _ Hpe Hx) as (l2 & H2 & Hlen).
    exists l2. split; [apply (ancestors_mono fuel); [done|lia] | simpl; lia].
  - injection Hl as <-. apply list_elem_of_singleton in Hx as ->. eauto.
Qed.

Lemma ancestors_NoDup fuel s e l :
  ancestors fuel s e = Some l -> NoDup l.
Proof.
  revert e l. induction fuel as [|fuel IH]; intros e l; [done|].
  intros Hl. pose proof Hl as Hl0. simpl in Hl.
  destruct (edges s !! e) as [ed|]; [|done].
  destruct (nodes s !! parent ed) as [p|]; [|done].
  destruct (parent_edge p) as [pe|].
  - destruct (ancestors fuel s pe) as [l'|] eqn:Hpe; [|done].
    injection Hl as <-. apply NoDup_cons. split; [|eauto].
    intros Hin. destruct (ancestors_suffix _ _ _ _ _ Hpe Hin) as (l2 & H2 & Hlen).
    pose proof (ancestors_deterministic _ _ _ _ _ _ H2 Hl0) as ->.
    simpl in Hlen. lia.
  - injection Hl as <-. apply NoDup_singleton.
Qed.

Lemma ancestors_head fuel s e l :
  ancestors fuel s e = Some l -> e ∈ l /\ is_Some (edges s !! e).
Proof.
  destruct fuel as [|fuel]; [done|]. simpl.
  destruct (edges s !! e) as [ed|]; [|done].
  destruct (nodes s !! parent ed) as [p|]; [|done].
  destruct (parent_edge p) as [pe|].
  - destruct (ancestors fuel s pe) as [l'|]; [|done].
    intros [= <-]. split; [left|by eexists].
  - intros [= <-]. split; [left|by eexists].
Qed.

(** One call of [update], unfolded: the statistics of [e] are bumped,
    then the same reward goes to the edge into the parent node, if any. *)
Lemma update_step fuel s e r ed p :
  edges s !! e = Some ed ->
  nodes s !! parent ed = Some p ->
  update (S fuel) e r s =
    match parent_edge p with
    | Some pe => update fuel pe r (set_edges (insert e (bump r ed)) s)
    | None => (set_edges (insert e (bump r ed)) s, Ok tt)
    end.
Proof.
  intros He Hp. cbn [update].
  unfold bind, set_value, set_visit_count, bind, read_edge, write_edge, read_node.
  cbn. repeat (first [rewrite He | rewrite lookup_insert_eq | rewrite Hp]; cbn).
  unfold set_edges. cbn. rewrite !insert_insert_eq.
  destruct (parent_edge p); reflexivity.
Qed.

Lemma ancestors_set_edges fuel s e x r ed :
  edges s !! x = Some ed ->
  ancestors fuel (set_edges (insert x (bump r ed)) s) e = ancestors fuel s e.
Proof.
  intros Hx. revert e. induction fuel as [|fuel IH]; intros e; [done|].
  simpl. destruct (decide (x = e)) as [->|Hne].
  - rewrite lookup_insert_eq, Hx. simpl.
    destruct (nodes s !! parent ed) as [p|]; [|done].
    destruct (parent_edge p) as [pe|]; [|done]. by rewrite IH.
  - rewrite lookup_insert_ne by done.
    destruct (edges s !! e) as [ed'|]; [|done].
    destruct (nodes s !! parent ed') as [p|]; [|done].
    destruct (parent_edge p) as [pe|]; [|done]. by rewrite IH.
Qed.

(** When the chain of parent edges above [e] ends within the fuel,
    [update] returns, and it has bumped exactly the edges of the chain,
    each once. *)
Lemma update_ancestors fuel s e r l :
  ancestors fuel s e = Some l ->
  exists s', update fuel e r s = (s', Ok tt) /\
    nodes s' = nodes s /\ next_node s' = next_node s /\
    next_edge s' = next_edge s /\ root s' = root s /\ draws s' = draws s /\
    forall x, edges s' !! x =
      (if bool_decide (x ∈ l) then bump r else id) <$> edges s !! x.
Proof.
  revert s e l. induction fuel as [|fuel IH]; intros s e l; [done|].
  intros Hl. pose proof (ancestors_NoDup _ _ _ _ Hl) as Hnd. simpl in Hl.
  destruct (edges s !! e) as [ed|] eqn:He; [|done].
  destruct (nodes s !! parent ed) as [p|] eqn:Hp; [|done].
  rewrite (update_step _ _ _ _ _ _ He Hp).
  destruct (parent_edge p) as [pe|].
  - destruct (ancestors fuel s pe) as [l'|] eqn:Hpe; [|done].
    injection Hl as <-. apply NoDup_cons in Hnd as [Hnotin _].
    destruct (IH (set_edges (insert e (bump r ed)) s) pe l') as (s' & Hs' & Hrest).
    { by rewrite ancestors_set_edges. }
    exists s'. split; [done|].
    destruct Hrest as (-> & -> & -> & -> & -> & Hedges).
    repeat split; try done.
    intros x. rewrite Hedges. unfold set_edges; simpl.
    destruct (decide (x = e)) as [->|Hne].
    + rewrite lookup_insert_eq, He.
      rewrite bool_decide_eq_false_2 by done.
      rewrite bool_decide_eq_true_2 by (apply elem_of_cons; auto). done.
    + rewrite lookup_insert_ne by done.
      destruct (decide (x ∈ l')).
      * rewrite !bool_decide_eq_true_2 by (try apply elem_of_cons; auto). done.
      * rewrite !bool_decide_eq_false_2 by (try apply not_elem_of_cons; auto). done.
  - injection Hl as <-. eexists. split; [done|].
    repeat split; try done. intros x. unfold set_edges; simpl.
    destruct (decide (x = e)) as [->|Hne].
    + rewrite lookup_insert_eq, He.
      rewrite bool_decide_eq_true_2 by (apply elem_of_cons; auto). done.
    + rewrite lookup_insert_ne by done.
      rewrite bool_decide_eq_false_2 by (apply not_elem_of_cons; split; [done|apply not_elem_of_nil]).
      by destruct (edges s !! x).
Qed.

(** Conversely, an [update] that returns has walked a chain that ends. *)
Lemma update_returns fuel s e r s' :
  update fuel e r s = (s', Ok tt) -> exists l, ancestors fuel s e = Some l.
Proof.
  revert s e. induction fuel as [|fuel IH]; intros s e; [done|].
  intros Hu. simpl.
  destruct (edges s !! e) as [ed|] eqn:He.
  2:{ simpl in Hu. unfold bind, read_edge in Hu. cbn in Hu. by rewrite He in Hu. }
  destruct (nodes s !! parent ed) as [p|] eqn:Hp.
  2:{ simpl in Hu.
      unfold bind, set_value, set_visit_count, bind, read_edge, write_edge,
        read_node in Hu.
      cbn in Hu.
      repeat (first [rewrite He in Hu | rewrite lookup_insert_eq in Hu
                    | rewrite Hp in Hu]; cbn in Hu).
      done. }
  rewrite (update_step _ _ _ _ _ _ He Hp) in Hu.
  destruct (parent_edge p) as [pe|]; [|eauto].
  apply IH in Hu as [l Hl]. rewrite ancestors_set_edges in Hl by done.
  rewrite Hl. eauto.
Qed.

Lemma ancestors_ext fuel s1 s2 e :
  nodes s1 = nodes s2 ->
  (forall x, parent <$> edges s1 !! x = parent <$> edges s2 !! x) ->
  ancestors fuel s1 e = ancestors fuel s2 e.
Proof.
  intros Hn He. revert e. induction fuel as [|fuel IH]; intros e; [done|].
  simpl. rewrite Hn. specialize (He e).
  destruct (edges s1 !! e) as [ed1|], (edges s2 !! e) as [ed2|]; try done.
  simpl in He. injection He as ->.
  destruct (nodes s2 !! parent ed2) as [p|]; [|done].
  destruct (parent_edge p); [|done]. by rewrite IH.
Qed.

Lemma updates_conservation fuel calls s s' x ed :
  updates fuel calls s = (s', Ok tt) ->
  edges s !! x = Some ed ->
  edges s' !! x =
    Some (mkTreeEdge (prior ed)
            (visit_count ed + length (List.filter (reaches fuel s x) calls))
            (fold_left add (map snd (List.filter (reaches fuel s x) calls)) (value ed))
            (parent ed) (child ed)).
Proof.
  revert s ed. induction calls as [|[e r] calls IH]; intros s ed Hrun Hx.
  - injection Hrun as <-. simpl. rewrite Hx. destruct ed. simpl.
    do 2 f_equal. lia.
  - simpl in Hrun. apply bind_inv in Hrun as (s1 & [] & Hup & Hrest).
    destruct (update_returns _ _ _ _ _ Hup) as [l Hl].
    destruct (update_ancestors _ _ _ r _ Hl) as (s1' & Hup' & Hn & _ & _ & _ & _ & He).
    rewrite Hup in Hup'. injection Hup' as <-.
    assert (Hreach : forall c, reaches fuel s1 x c = reaches fuel s x c).
    { intros c. unfold reaches.
      assert (ancestors fuel s1 c.1 = ancestors fuel s c.1) as ->; [|done].
      apply ancestors_ext; [done|].
      intros y. rewrite He. destruct (edges s !! y) as [ed'|]; [|done].
      simpl. by destruct (bool_decide (y ∈ l)). }
    pose proof (He x) as Hx1. rewrite Hx in Hx1. simpl in Hx1.
    rewrite (IH _ _ Hrest Hx1).
    rewrite (filter_ext _ _ Hreach).
    assert (Hr : reaches fuel s x (e, r) = bool_decide (x ∈ l)).
    { unfold reaches. simpl. by rewrite Hl. }
    cbn [List.filter]. rewrite Hr.
    destruct (bool_decide (x ∈ l)); unfold id; simpl; [|done].
    do 2 f_equal. lia.
Qed.

(** C1.  [update(reward)] adds [reward] to the value of the edge and one
    to its visit count and then, when the parent node of the edge has a
    parent edge, applies the same [update(reward)], with the reward as
    it is, to that edge; the call returns whenever the chain of parent
    edges ends within the recursion bound.  Consequently, after any
    sequence of [update] calls, an edge that [N] of the calls reach
    (directly or through propagation) has its visit count raised by
    exactly [N] and its value raised by the rewards of these [N] calls,
    added in the order of the calls: for an edge that starts at count 0
    and value 0 these are [N] and the sum of the [N] rewards. *)
Theorem update_conservation fuel s :
  (forall e r ed p,
     edges s !! e = Some ed ->
     nodes s !! parent ed = Some p ->
     update (S fuel) e r s =
       match parent_edge p with
       | Some pe => update fuel pe r (set_edges (insert e (bump r ed)) s)
       | None => (set_edges (insert e (bump r ed)) s, Ok tt)
       end) /\
  (forall e r l,
     ancestors fuel s e = Some l ->
     exists s', update fuel e r s = (s', Ok tt)) /\
  (forall calls s' x ed,
     updates fuel calls s = (s', Ok tt) ->
     edges s !! x = Some ed ->
     let received := map snd (List.filter (reaches fuel s x) calls) in
     edges s' !! x =
       Some (mkTreeEdge (prior ed)
               (visit_count ed + length received)
               (fold_left add received (value ed))
               (parent ed) (child ed))).
Proof.
  split; [|split].
  - intros e r ed p. apply update_step.
  - intros e r l Hl. destruct (update_ancestors _ _ _ r _ Hl) as (s' & Hs' & _).
    eauto.
  - intros calls s' x ed Hrun Hx received.
    rewrite (updates_conservation _ _ _ _ _ _ Hrun Hx).
    subst received. by rewrite length_map.
Qed.

(** ** edge_criteria *)

(** C2.  The selection score of an edge with prior [p], value [v] and
    visit count [n], under the exploration constant [c], is
    [v / (1 + n) + c * p * sqrt(parent_visits) / (1 + n)], where
    [parent_visits] is the visit count of the edge into the parent node
    of the edge, or 0 when that node has no parent edge. *)
Theorem edge_criteria_formula s edge c ed pv :
  edges s !! edge = Some ed ->
  parent_visits s ed = Some pv ->
  edge_criteria edge c s =
    (s, Ok (add (div (value ed) (of_nat (1 + visit_count ed)))
                (div (mul (mul c (prior ed)) (sqrt (of_nat pv)))
                     (of_nat (1 + visit_count ed))))).
Proof.
  intros He Hpv. unfold parent_visits in Hpv.
  destruct (nodes s !! parent ed) as [p|] eqn:Hp; [|done].
  unfold edge_criteria.
  rewrite (bind_ok _ _ _ _ _ (read_edge_ok _ _ _ He)).
  rewrite (bind_ok _ _ _ _ _ (read_node_ok _ _ _ Hp)).
  destruct (parent_edge p) as [pe|].
  - destruct (edges s !! pe) as [ped|] eqn:Hpe; [|done].
    injection Hpv as <-.
    rewrite (bind_ok _ _ s s (visit_count ped)); [done|].
    by rewrite (bind_ok _ _ _ _ _ (read_edge_ok _ _ _ Hpe)).
  - injection Hpv as <-. reflexivity.
Qed.

(** ** softmax *)





(** ** turn *)

Lemma for_each_average s l (eds : list TreeEdge) :
  Forall2 (fun c ed => edges s !! c = Some ed) l eds ->
  for_each average l s = (s, Ok (mean <$> eds)).
Proof.
  induction 1 as [|c ed l eds Hc _ IH]; [done|].
  cbn [for_each]. unfold average at 1.
  erewrite bind_ok; [|erewrite bind_ok; [reflexivity | by apply read_edge_ok]].
  unfold ret at 1. erewrite bind_ok; [|exact IH]. reflexivity.
Qed.

Lemma comparableb_spec (l : list num) : comparableb l = true -> comparable l.
Proof.
  unfold comparableb. rewrite andb_true_iff, !forallb_forall.
  intros [Htotal Htrans]. split.
  - intros a b Ha%list_elem_of_In Hb%list_elem_of_In.
    specialize (Htotal a Ha). rewrite forallb_forall in Htotal.
    specialize (Htotal b Hb). by apply orb_true_iff.
  - intros a b c Ha%list_elem_of_In Hb%list_elem_of_In Hc%list_elem_of_In Hab Hbc.
    specialize (Htrans a Ha). rewrite forallb_forall in Htrans.
    specialize (Htrans b Hb). rewrite forallb_forall in Htrans.
    specialize (Htrans c Hc). by rewrite Hab, Hbc in Htrans.
Qed.

Lemma argmax_from_spec (pre l : list num) best bi :
  comparable (pre ++ l) ->
  pre !! bi = Some best ->
  (forall y, y ∈ pre -> leb y best = true) ->
  (forall j y, j < bi -> pre !! j = Some y -> leb best y = false) ->
  exists m, (pre ++ l) !! argmax_from best bi (length pre) l = Some m /\
    (forall y, y ∈ pre ++ l -> leb y m = true) /\
    (forall j y, j < argmax_from best bi (length pre) l ->
       (pre ++ l) !! j = Some y -> leb m y = false).
Proof.
  revert pre best bi. induction l as [|x l IH]; intros pre best bi Hord Hbi Hmax Hbefore.
  - simpl. rewrite app_nil_r. eauto.
  - cbn [argmax_from].
    destruct Hord as [Htotal Htrans].
    assert (Hx : x ∈ pre ++ x :: l) by (apply elem_of_app; right; left).
    assert (Hbest : best ∈ pre ++ x :: l).
    { apply elem_of_app; left. by eapply list_elem_of_lookup_2. }
    assert (Hpre : forall y, y ∈ pre -> y ∈ pre ++ x :: l).
    { intros y Hy. apply elem_of_app. by left. }
    revert IH Htotal Htrans Hx Hbest Hpre.
    replace (pre ++ x :: l) with ((pre ++ [x]) ++ l) by by rewrite <- app_assoc.
    replace (S (length pre)) with (length (pre ++ [x]))
      by (rewrite length_app; simpl; lia).
    intros IH Htotal Htrans Hx Hbest Hpre.
    destruct (leb x best) eqn:Hle.
    + apply IH.
      * done.
      * apply lookup_app_l_Some. done.
      * intros y [Hy|Hy%list_elem_of_singleton]%elem_of_app; [eauto|by subst].
      * intros j y Hj Hy. apply lookup_lt_Some in Hbi as Hbi'.
        rewrite lookup_app_l in Hy by lia. eauto.
    + assert (Hxx : leb x x = true) by (by destruct (Htotal x x Hx Hx)).
      assert (Hbx : leb best x = true).
      { destruct (Htotal x best Hx Hbest) as [H|H]; [by rewrite Hle in H|done]. }
      rewrite Hxx. apply IH.
      * done.
      * rewrite lookup_app_r by lia. by rewrite Nat.sub_diag.
      * intros y [Hy|Hy%list_elem_of_singleton]%elem_of_app; [|by subst].
        apply (Htrans y best x); auto.
      * intros j y Hj Hy. rewrite lookup_app_l in Hy by done.
        destruct (leb x y) eqn:Hxy; [|done].
        assert (Hyin : y ∈ pre) by (by eapply list_elem_of_lookup_2).
        rewrite (Htrans x y best) in Hle; auto.
Qed.

Lemma argmax_spec (l : list num) :
  l <> [] ->
  comparable l ->
  exists i m, argmax l = Ok i /\ l !! i = Some m /\
    (forall y, y ∈ l -> leb y m = true) /\
    (forall j y, j < i -> l !! j = Some y -> leb m y = false).
Proof.
  destruct l as [|x l]; [done|]. intros _ Hord.
  assert (Hxx : leb x x = true).
  { destruct Hord as [Htotal _]. by destruct (Htotal x x); try left. }
  destruct (argmax_from_spec [x] l x 0) as (m & Hm & Hmax & Hfirst).
  - done.
  - done.
  - by intros y ->%list_elem_of_singleton.
  - intros; lia.
  - exists (argmax_from x 0 1 l), m. simpl. rewrite Hxx. eauto.
Qed.

(** With a NaN in the list, [np.argmax] returns the index of the first
    NaN, whatever the other numbers are. *)
Lemma argmax_from_nan (l1 l2 : list num) x best bi idx :
  leb x x = false ->
  leb x best = false ->
  (forall y, y ∈ l1 -> leb y y = true /\ leb x y = false) ->
  argmax_from best bi idx (l1 ++ x :: l2) = idx + length l1.
Proof.
  intros Hxx. revert best bi idx.
  induction l1 as [|y l1 IH]; intros best bi idx Hxb Hl1; simpl.
  - rewrite Hxb, Hxx. lia.
  - destruct (Hl1 y) as [Hyy Hxy]; [left|].
    assert (Hrest : forall z, z ∈ l1 -> leb z z = true /\ leb x z = false).
    { intros z Hz. apply Hl1. by right. }
    destruct (leb y best).
    + rewrite IH by done. lia.
    + rewrite Hyy, IH by done. lia.
Qed.

Lemma argmax_nan (l1 l2 : list num) x :
  leb x x = false ->
  (forall y, y ∈ l1 -> leb y y = true /\ leb x y = false) ->
  argmax (l1 ++ x :: l2) = Ok (length l1).
Proof.
  intros Hxx Hl1. destruct l1 as [|y l1]; simpl.
  - by rewrite Hxx.
  - destruct (Hl1 y) as [Hyy Hxy]; [left|]. rewrite Hyy. f_equal.
    rewrite argmax_from_nan; [done..|].
    intros z Hz. apply Hl1. by right.
Qed.

Lemma turn_unfold s node rn nn :
  nodes s !! root s = Some rn ->
  nodes s !! node = Some nn ->
  turn node s =
    if node_eq (payload rn) (payload nn) then
      bind (for_each average (children rn)) (fun averages =>
      bind (lift (argmax averages)) (fun action_idx =>
      bind (index (children rn) action_idx) (fun action =>
      bind (read_edge action) (fun aed =>
      bind (set_children (child aed) []) (fun _ =>
      ret (child aed)))))) s
    else (s, Raise AssertionError).
Proof.
  intros Hr Hn. unfold turn.
  rewrite (bind_ok _ _ s s (root s)) by done.
  rewrite (bind_ok _ _ _ _ _ (read_node_ok _ _ _ Hr)).
  rewrite (bind_ok _ _ _ _ _ (read_node_ok _ _ _ Hn)).
  by destruct (node_eq (payload rn) (payload nn)).
Qed.

(** C3, as amended.  [turn(node)] raises an [AssertionError], and
    leaves every object as it is, when [node] is not equal to the root
    of the tree.  When it is equal, the root has at least one child
    edge and the average values [value / (1 + visit_count)] of the
    child edges are comparable (none is NaN), [turn] picks the child
    edge whose average value is at least that of every child edge, the
    first such edge in the order of [children]: every earlier edge has
    a strictly smaller average.  It empties the [children] of the child
    node of that edge and returns that node, and the [root] field of
    the tree stays as it was. *)
Theorem turn_commits s node rn nn (eds : list TreeEdge) :
  nodes s !! root s = Some rn ->
  nodes s !! node = Some nn ->
  (node_eq (payload rn) (payload nn) = false ->
   turn node s = (s, Raise AssertionError)) /\
  (node_eq (payload rn) (payload nn) = true ->
   children rn <> [] ->
   Forall2 (fun c ed => edges s !! c = Some ed) (children rn) eds ->
   comparable (mean <$> eds) ->
   (forall ed, ed ∈ eds -> is_Some (nodes s !! child ed)) ->
   exists i action aed cn s',
     children rn !! i = Some action /\
     edges s !! action = Some aed /\
     eds !! i = Some aed /\
     (forall ed, ed ∈ eds -> leb (mean ed) (mean aed) = true) /\
     (forall j ed, j < i -> eds !! j = Some ed -> leb (mean aed) (mean ed) = false) /\
     nodes s !! child aed = Some cn /\
     turn node s = (s', Ok (child aed)) /\
     nodes s' = <[child aed := mkTreeNode (parent_edge cn) [] (payload cn)]> (nodes s) /\
     edges s' = edges s /\
     root s' = root s).
Proof.
  intros Hr Hn. rewrite (turn_unfold _ _ _ _ Hr Hn). split.
  - by intros ->.
  - intros -> Hne Heds Hord Hch.
    rewrite (bind_ok _ _ _ _ _ (for_each_average _ _ _ Heds)).
    destruct (argmax_spec (mean <$> eds)) as (i & m & Harg & Hi & Hmax & Hfirst).
    { destruct Heds; [done|]. done. }
    { done. }
    rewrite (bind_ok _ _ s s i) by (unfold lift; by rewrite Harg).
    apply list_lookup_fmap_Some in Hi as (aed & -> & Haed).
    destruct (Forall2_lookup_r _ _ _ _ _ Heds Haed) as (action & Haction & Hedge).
    assert (Hcn : is_Some (nodes s !! child aed)).
    { apply Hch. by eapply list_elem_of_lookup_2. }
    destruct Hcn as [cn Hcn].
    exists i, action, aed, cn,
      (set_nodes (insert (child aed) (mkTreeNode (parent_edge cn) [] (payload cn))) s).
    split_and!; try done.
    + intros ed Hed. apply Hmax. by apply list_elem_of_fmap_2.
    + intros j ed Hj Hed. apply (Hfirst j); [done|].
      rewrite list_lookup_fmap. by rewrite Hed.
    + rewrite (bind_ok _ _ s s action) by (unfold index; by rewrite Haction).
      rewrite (bind_ok _ _ _ _ _ (read_edge_ok _ _ _ Hedge)).
      unfold set_children.
      erewrite bind_ok; [reflexivity|].
      rewrite (bind_ok _ _ _ _ _ (read_node_ok _ _ _ Hcn)). reflexivity.
Qed.

(** C10.  Called with the root while the root has no child edge,
    [turn] raises the [ValueError] of the arg-max over an empty
    sequence and returns no node: a call of [turn] that returns has
    found at least one child edge under the root. *)
Theorem turn_needs_a_child s node rn nn :
  nodes s !! root s = Some rn ->
  nodes s !! node = Some nn ->
  node_eq (payload rn) (payload nn) = true ->
  (children rn = [] -> turn node s = (s, Raise ValueError)) /\
  (forall s' n, turn node s = (s', Ok n) -> children rn <> []).
Proof.
  intros Hr Hn Heq.
  assert (Hempty : children rn = [] -> turn node s = (s, Raise ValueError)).
  { intros Hch. rewrite (turn_unfold _ _ _ _ Hr Hn), Heq, Hch. reflexivity. }
  split; [done|].
  intros s' n Hturn Hch. rewrite (Hempty Hch) in Hturn. discriminate.
Qed.

(** ** Constructors and attribute assignments *)

Lemma TreeNode_init_eq pe (st : St) s :
  TreeNode_init pe st s =
    (mkStore (<[next_node s := mkTreeNode pe [] st]> (nodes s)) (edges s)
             (S (next_node s)) (next_edge s) (root s) (draws s),
     Ok (next_node s)).
Proof. reflexivity. Qed.

Lemma TreeEdge_init_eq (p : num) par ch s :
  TreeEdge_init p par ch s =
    (mkStore (nodes s) (<[next_edge s := mkTreeEdge p 0 (of_nat 0) par ch]> (edges s))
             (next_node s) (S (next_edge s)) (root s) (draws s),
     Ok (next_edge s)).
Proof. reflexivity. Qed.

Lemma set_parent_edge_eq s n nd pe :
  nodes s !! n = Some nd ->
  set_parent_edge n pe s =
    (set_nodes (insert n (mkTreeNode pe (children nd) (payload nd))) s, Ok tt).
Proof.
  intros Hn. unfold set_parent_edge.
  by rewrite (bind_ok _ _ _ _ _ (read_node_ok _ _ _ Hn)).
Qed.

Lemma set_children_eq s n nd ch :
  nodes s !! n = Some nd ->
  set_children n ch s =
    (set_nodes (insert n (mkTreeNode (parent_edge nd) ch (payload nd))) s, Ok tt).
Proof.
  intros Hn. unfold set_children.
  by rewrite (bind_ok _ _ _ _ _ (read_node_ok _ _ _ Hn)).
Qed.

(** ** expand *)

Lemma build_nodes_spec (l : list (St * num)) s :
  exists s',
    build_nodes l s = (s', Ok (number_from (next_node s) l)) /\
    edges s' = edges s /\ next_edge s' = next_edge s /\
    root s' = root s /\ draws s' = draws s /\
    next_node s' = next_node s + length l /\
    (forall i, i < next_node s \/ next_node s + length l <= i ->
       nodes s' !! i = nodes s !! i) /\
    (forall i st p, l !! i = Some (st, p) ->
       nodes s' !! (next_node s + i) = Some (mkTreeNode None [] st)).
Proof.
  revert s. induction l as [|[st p] l IH]; intros s.
  - exists s. simpl. split_and!; try done; try lia.
  - cbn [build_nodes number_from].
    rewrite (bind_ok _ _ _ _ _ (TreeNode_init_eq None st s)).
    set (s1 := mkStore _ _ _ _ _ _).
    destruct (IH s1) as (s' & Hrun & He & Hne & Hr & Hd & Hnn & Hold & Hnew).
    exists s'. rewrite (bind_ok _ _ _ _ _ Hrun). simpl in *.
    split_and!; try done; try lia.
    + intros i Hi. rewrite Hold by lia. apply lookup_insert_ne. lia.
    + intros [|i] st' p' Hi; simpl in Hi.
      * injection Hi as <- <-. rewrite Nat.add_0_r, Hold by lia.
        apply lookup_insert_eq.
      * replace (next_node s + S i) with (S (next_node s) + i) by lia. eauto.
Qed.

Lemma expand_loop_spec n (l : list (St * num)) : forall base s nd,
  nodes s !! n = Some nd ->
  n < base ->
  (forall i st p, l !! i = Some (st, p) ->
     nodes s !! (base + i) = Some (mkTreeNode None [] st)) ->
  exists s',
    expand_loop n (number_from base l) s = (s', Ok tt) /\
    next_node s' = next_node s /\
    next_edge s' = next_edge s + length l /\
    root s' = root s /\ draws s' = draws s /\
    nodes s' !! n =
      Some (mkTreeNode (parent_edge nd)
              (children nd ++ seq (next_edge s) (length l)) (payload nd)) /\
    (forall i st p, l !! i = Some (st, p) ->
       edges s' !! (next_edge s + i) =
         Some (mkTreeEdge p 0 (of_nat 0) n (base + i)) /\
       nodes s' !! (base + i) =
         Some (mkTreeNode (Some (next_edge s + i)) [] st)) /\
    (forall j, j <> n -> j < base \/ base + length l <= j ->
       nodes s' !! j = nodes s !! j) /\
    (forall j, j < next_edge s \/ next_edge s + length l <= j ->
       edges s' !! j = edges s !! j).
Proof.
  induction l as [|[st p] l IH]; intros base s nd Hn Hlt Hnew.
  - exists s. simpl. rewrite app_nil_r. destruct nd. split_and!; try done; try lia.
  - cbn [expand_loop number_from].
    rewrite (bind_ok _ _ _ _ _ (TreeEdge_init_eq p n base s)).
    set (s1 := mkStore _ _ _ _ _ _).
    assert (Hb : nodes s1 !! base = Some (mkTreeNode None [] st)).
    { specialize (Hnew 0 st p eq_refl). by rewrite Nat.add_0_r in Hnew. }
    rewrite (bind_ok _ _ _ _ _ (set_parent_edge_eq _ _ _ (Some (next_edge s)) Hb)).
    set (s2 := set_nodes _ s1).
    assert (Hn2 : nodes s2 !! n = Some nd).
    { unfold s2, set_nodes. simpl. rewrite lookup_insert_ne by lia. done. }
    rewrite (bind_ok _ _ _ _ _ (read_node_ok _ _ _ Hn2)).
    rewrite (bind_ok _ _ _ _ _ (set_children_eq _ _ _ (children nd ++ [next_edge s]) Hn2)).
    set (s3 := set_nodes _ s2).
    destruct (IH (S base) s3
                (mkTreeNode (parent_edge nd) (children nd ++ [next_edge s]) (payload nd)))
      as (s' & Hrun & Hnn & Hne & Hr & Hd & Hnode & Hch & Hold & Heold).
    { unfold s3, set_nodes. simpl. apply lookup_insert_eq. }
    { lia. }
    { intros i st' p' Hi. pose proof (Hnew (S i) st' p' Hi) as H'.
      replace (base + S i) with (S base + i) in H' by lia.
      unfold s3, s2, s1, set_nodes. cbn [nodes].
      rewrite !lookup_insert_ne by lia. exact H'. }
    exists s'. split; [exact Hrun|]. simpl in *.
    split_and!; try done; try lia.
    + rewrite Hnode. do 2 f_equal. by rewrite <- app_assoc.
    + intros [|i] st' p' Hi; simpl in Hi.
      * injection Hi as <- <-. rewrite !Nat.add_0_r. split.
        -- rewrite Heold by lia. apply lookup_insert_eq.
        -- rewrite Hold by lia. rewrite lookup_insert_ne by lia.
           apply lookup_insert_eq.
      * replace (next_edge s + S i) with (S (next_edge s) + i) by lia.
        replace (base + S i) with (S base + i) by lia. eauto.
    + intros j Hj Hrange. rewrite Hold by lia.
      rewrite !lookup_insert_ne by lia. done.
    + intros j Hrange. rewrite Heold by lia. apply lookup_insert_ne. lia.
Qed.

Lemma expand_rejects s n nd :
  nodes s !! n = Some nd ->
  children nd <> [] ->
  expand n s = (s, Raise AssertionError).
Proof.
  intros Hn Hch. unfold expand.
  rewrite (bind_ok _ _ _ _ _ (read_node_ok _ _ _ Hn)).
  destruct (children nd); [done|reflexivity].
Qed.

Lemma expand_spec s n nd :
  nodes s !! n = Some nd ->
  children nd = [] ->
  n < next_node s ->
  let av := available (payload nd) in
  exists s',
    expand n s = (s', Ok tt) /\
    next_node s' = next_node s + length av /\
    next_edge s' = next_edge s + length av /\
    root s' = root s /\ draws s' = draws s /\
    nodes s' !! n =
      Some (mkTreeNode (parent_edge nd) (seq (next_edge s) (length av)) (payload nd)) /\
    (forall i st p, av !! i = Some (st, p) ->
       edges s' !! (next_edge s + i) =
         Some (mkTreeEdge p 0 (of_nat 0) n (next_node s + i)) /\
       nodes s' !! (next_node s + i) =
         Some (mkTreeNode (Some (next_edge s + i)) [] st)) /\
    (forall j, j <> n -> j < next_node s \/ next_node s + length av <= j ->
       nodes s' !! j = nodes s !! j) /\
    (forall j, j < next_edge s \/ next_edge s + length av <= j ->
       edges s' !! j = edges s !! j).
Proof.
  intros Hn Hch Hlt av. unfold expand.
  rewrite (bind_ok _ _ _ _ _ (read_node_ok _ _ _ Hn)). rewrite Hch. cbn [length Nat.eqb].
  unfold get_available_child_nodes.
  destruct (build_nodes_spec av s) as (s1 & Hrun & He & Hne & Hr & Hd & Hnn & Hold & Hnew).
  erewrite bind_ok; [|rewrite (bind_ok _ _ _ _ _ (read_node_ok _ _ _ Hn)); exact Hrun].
  destruct (expand_loop_spec n av (next_node s) s1 nd)
    as (s' & Hrun' & Hnn' & Hne' & Hr' & Hd' & Hnode & Hch' & Hold' & Heold').
  { rewrite Hold by lia. done. }
  { done. }
  { done. }
  exists s'. split; [exact Hrun'|]. rewrite Hch in Hnode. simpl in Hnode.
  rewrite Hne in *. rewrite He in *.
  split_and!; try done; try congruence; try lia.
  intros j Hj Hrange. rewrite Hold' by lia. apply Hold. lia.
Qed.

(** C6.  [expand()] on a node that has children raises an
    [AssertionError], and the store after the rejected call is the
    store before it, so the children of the node are what they were.
    On a node without children, [expand()] makes one edge per entry of
    the enumeration of legal actions, in the order of the enumeration:
    the edge carries the prior of the entry, its parent is the node,
    its child is the new node of the entry, and the parent edge of that
    new node is the edge. *)
Theorem expand_once s n nd :
  nodes s !! n = Some nd ->
  n < next_node s ->
  (children nd <> [] -> expand n s = (s, Raise AssertionError)) /\
  (children nd = [] ->
   exists s' ch,
     expand n s = (s', Ok tt) /\
     nodes s' !! n = Some (mkTreeNode (parent_edge nd) ch (payload nd)) /\
     length ch = length (available (payload nd)) /\
     forall i st p, available (payload nd) !! i = Some (st, p) ->
       exists e c,
         ch !! i = Some e /\
         edges s' !! e = Some (mkTreeEdge p 0 (of_nat 0) n c) /\
         nodes s' !! c = Some (mkTreeNode (Some e) [] st)).
Proof.
  intros Hn Hlt. split; [by apply expand_rejects|].
  intros Hch.
  destruct (expand_spec s n nd Hn Hch Hlt)
    as (s' & Hrun & _ & _ & _ & _ & Hnode & Hnew & _).
  exists s', (seq (next_edge s) (length (available (payload nd)))).
  split_and!; try done.
  - by rewrite length_seq.
  - intros i st p Hi. exists (next_edge s + i), (next_node s + i).
    destruct (Hnew i st p Hi) as [He Hc]. split_and!; try done.
    apply lookup_seq. split; [done|]. by eapply lookup_lt_Some.
Qed.

(** ** The expansion phase of _fit *)

Lemma is_finish_eq s n nd :
  nodes s !! n = Some nd ->
  is_finish n s = (s, Ok (length (available (payload nd)) =? 0)).
Proof.
  intros Hn. unfold is_finish.
  by rewrite (bind_ok _ _ _ _ _ (read_node_ok _ _ _ Hn)).
Qed.

Lemma opponent_reply_eq s n nd :
  nodes s !! n = Some nd ->
  opponent_reply n s =
    (mkStore (<[next_node s := mkTreeNode None [] (opponent_turn (draws s) (payload nd))]>
                (nodes s))
             (edges s) (S (next_node s)) (next_edge s) (root s) (S (draws s)),
     Ok (next_node s)).
Proof.
  intros Hn. unfold opponent_reply.
  by rewrite (bind_ok _ _ _ _ _ (read_node_ok _ _ _ Hn)).
Qed.

Lemma TreeEdge_init_eq_bind {B} (p : num) par ch (k : nat -> M B) s :
  bind (TreeEdge_init p par ch) k s =
    k (next_edge s)
      (mkStore (nodes s) (<[next_edge s := mkTreeEdge p 0 (of_nat 0) par ch]> (edges s))
               (next_node s) (S (next_edge s)) (root s) (draws s)).
Proof. reflexivity. Qed.

Lemma fold_opponent_spec n (av : list (St * num)) : forall eb nb s,
  eb + length av <= next_edge s ->
  nb + length av <= next_node s ->
  (forall i st p, av !! i = Some (st, p) ->
     edges s !! (eb + i) = Some (mkTreeEdge p 0 (of_nat 0) n (nb + i)) /\
     nodes s !! (nb + i) = Some (mkTreeNode (Some (eb + i)) [] st)) ->
  exists s',
    fold_opponent (seq eb (length av)) s = (s', Ok tt) /\
    next_node s <= next_node s' /\ next_edge s <= next_edge s' /\
    root s' = root s /\
    (forall i st p, av !! i = Some (st, p) ->
       (available st = [] /\
        nodes s' !! (nb + i) = Some (mkTreeNode (Some (eb + i)) [] st)) \/
       (available st <> [] /\
        exists g r k,
          next_edge s <= g < next_edge s' /\ next_node s <= r < next_node s' /\
          nodes s' !! (nb + i) = Some (mkTreeNode (Some (eb + i)) [g] st) /\
          edges s' !! g = Some (mkTreeEdge (of_nat 1) 0 (of_nat 0) (nb + i) r) /\
          nodes s' !! r = Some (mkTreeNode None [] (opponent_turn k st)))) /\
    (forall j, j < next_node s -> j < nb \/ nb + length av <= j ->
       nodes s' !! j = nodes s !! j) /\
    (forall j, j < next_edge s -> edges s' !! j = edges s !! j).
Proof.
  induction av as [|[st p] av IH]; intros eb nb s Heb Hnb Hav.
  - exists s. simpl. split_and!; try done.
  - cbn [length seq fold_opponent].
    destruct (Hav 0 st p eq_refl) as [He Hc]. rewrite !Nat.add_0_r in He, Hc.
    simpl in Heb, Hnb.
    rewrite (bind_ok _ _ _ _ _ (read_edge_ok _ _ _ He)). cbn [child].
    rewrite (bind_ok _ _ _ _ _ (is_finish_eq _ _ _ Hc)). cbn [payload].
    assert (Hrest : forall s1,
      next_node s <= next_node s1 -> next_edge s <= next_edge s1 ->
      root s1 = root s ->
      (forall j, j < next_node s -> j <> nb -> nodes s1 !! j = nodes s !! j) ->
      (forall j, j < next_edge s -> edges s1 !! j = edges s !! j) ->
      exists s',
        fold_opponent (seq (S eb) (length av)) s1 = (s', Ok tt) /\
        next_node s1 <= next_node s' /\ next_edge s1 <= next_edge s' /\
        root s' = root s /\
        (forall i st' p', av !! i = Some (st', p') ->
           (available st' = [] /\
            nodes s' !! (nb + S i) = Some (mkTreeNode (Some (eb + S i)) [] st')) \/
           (available st' <> [] /\
            exists g r k,
              next_edge s <= g < next_edge s' /\ next_node s <= r < next_node s' /\
              nodes s' !! (nb + S i) = Some (mkTreeNode (Some (eb + S i)) [g] st') /\
              edges s' !! g = Some (mkTreeEdge (of_nat 1) 0 (of_nat 0) (nb + S i) r) /\
              nodes s' !! r = Some (mkTreeNode None [] (opponent_turn k st')))) /\
        (forall j, j < next_node s1 -> j <= nb \/ S nb + length av <= j ->
           nodes s' !! j = nodes s1 !! j) /\
        (forall j, j < next_edge s1 -> edges s' !! j = edges s1 !! j)).
    { intros s1 Hnn Hne Hr Hnodes Hedges.
      destruct (IH (S eb) (S nb) s1) as (s' & Hrun & Hnn' & Hne' & Hr' & Hch & Hold & Heold).
      { lia. } { lia. }
      { intros i st' p' Hi. destruct (Hav (S i) st' p' Hi) as [He' Hc'].
        pose proof (lookup_lt_Some _ _ _ Hi) as Hlen.
        replace (S eb + i) with (eb + S i) by lia.
        replace (S nb + i) with (nb + S i) by lia.
        rewrite Hedges by lia. rewrite Hnodes by lia. done. }
      exists s'. split_and!; try done; try congruence.
      - intros i st' p' Hi.
        replace (eb + S i) with (S eb + i) by lia.
        replace (nb + S i) with (S nb + i) by lia.
        destruct (Hch i st' p' Hi)
          as [?|(Hne0 & g & r & k & Hg & Hrr & Hcn & Hge & Hrn)]; [by left|].
        right. split; [done|]. exists g, r, k. split_and!; try done; lia.
      - intros j Hj Hrange. apply Hold; lia. }
    destruct (available st) as [|a avst] eqn:Hfin; cbn [length Nat.eqb negb].
    + rewrite (bind_ok _ _ s s tt) by done.
      destruct (Hrest s) as (s' & Hrun & Hnn' & Hne' & Hr' & Hch & Hold & Heold);
        try done.
      exists s'. split_and!; try done.
      * intros [|i] st' p' Hi; simpl in Hi.
        -- injection Hi as <- <-. left. rewrite !Nat.add_0_r. split; [done|].
           rewrite Hold by lia. done.
        -- eauto.
      * intros j Hj Hrange. apply Hold; lia.
    + set (s1 := mkStore (<[nb := mkTreeNode (Some eb) [next_edge s] st]>
                   (<[next_node s := mkTreeNode None [] (opponent_turn (draws s) st)]>
                      (nodes s)))
                 (<[next_edge s := mkTreeEdge (of_nat 1) 0 (of_nat 0) nb (next_node s)]> (edges s))
                 (S (next_node s)) (S (next_edge s)) (root s) (S (draws s))).
      assert (Hstep :
        bind (opponent_reply nb) (fun grand_child_node =>
          bind (TreeEdge_init (of_nat 1) nb grand_child_node) (fun e =>
            set_children nb [e])) s = (s1, Ok tt)).
      { rewrite (bind_ok _ _ _ _ _ (opponent_reply_eq _ _ _ Hc)).
        rewrite TreeEdge_init_eq_bind. cbn [payload].
        rewrite (set_children_eq _ nb (mkTreeNode (Some eb) [] st)); [reflexivity|].
        cbn [nodes]. rewrite lookup_insert_ne by lia. exact Hc. }
      rewrite (bind_ok _ _ _ _ _ Hstep).
      destruct (Hrest s1) as (s' & Hrun & Hnn' & Hne' & Hr' & Hch & Hold & Heold);
        try done; simpl; try lia.
      { intros j Hj Hjn. rewrite !lookup_insert_ne by lia. done. }
      { intros j Hj. rewrite lookup_insert_ne by lia. done. }
      exists s'. simpl in *. split_and!; try done; try lia.
      * intros [|i] st' p' Hi; simpl in Hi.
        -- injection Hi as <- <-. right. rewrite !Nat.add_0_r. rewrite Hfin.
           split; [done|]. exists (next_edge s), (next_node s), (draws s).
           split_and!; try lia.
           ++ rewrite Hold by lia. apply lookup_insert_eq.
           ++ rewrite Heold by lia. apply lookup_insert_eq.
           ++ rewrite Hold by lia. rewrite lookup_insert_ne by lia.
              apply lookup_insert_eq.
        -- eauto.
      * intros j Hj Hrange. rewrite Hold by lia.
        rewrite !lookup_insert_ne by lia. done.
      * intros j Hj. rewrite Heold by lia. rewrite lookup_insert_ne by lia. done.
Qed.

(** ** Invariants of computations *)

Section Keeps.

Variable I : store -> Prop.

Lemma keeps_ret {A} (a : A) (Q : A -> Prop) : Q a -> keeps I (ret a) Q.
Proof. intros HQ s HI. split; [done|]. by intros ? [= <-]. Qed.

Lemma keeps_raise {A} e (Q : A -> Prop) : keeps I (raise e) Q.
Proof. intros s HI. split; [done|]. by intros ? [=]. Qed.

Lemma keeps_bind {A B} (m : M A) (k : A -> M B) (P : A -> Prop) (Q : B -> Prop) :
  keeps I m P -> (forall a, P a -> keeps I (k a) Q) -> keeps I (bind m k) Q.
Proof.
  intros Hm Hk s HI. destruct (Hm s HI) as [HI1 HP]. unfold bind.
  destruct (m s) as [s1 [a|e]]; simpl in *.
  - apply (Hk a); auto.
  - split; [done|]. by intros ? [=].
Qed.

Lemma keeps_read_node n (Q : TreeNode -> Prop) :
  (forall s nd, I s -> nodes s !! n = Some nd -> Q nd) ->
  keeps I (read_node n) Q.
Proof.
  intros HQ s HI. unfold read_node.
  destruct (nodes s !! n) as [nd|] eqn:Hn; simpl; (split; [done|]).
  - intros ? [= <-]. eauto.
  - by intros ? [=].
Qed.

Lemma keeps_read_edge e (Q : TreeEdge -> Prop) :
  (forall s ed, I s -> edges s !! e = Some ed -> Q ed) ->
  keeps I (read_edge e) Q.
Proof.
  intros HQ s HI. unfold read_edge.
  destruct (edges s !! e) as [ed|] eqn:He; simpl; (split; [done|]).
  - intros ? [= <-]. eauto.
  - by intros ? [=].
Qed.

Lemma keeps_lift {A} (o : outcome A) : keeps I (lift o) (fun a => o = Ok a).
Proof. intros s HI. split; [done|]. intros a Ha. exact Ha. Qed.

Lemma keeps_index {A} (l : list A) i : keeps I (index l i) (fun a => l !! i = Some a).
Proof.
  intros s HI. unfold index. destruct (l !! i); (split; [done|]).
  - by intros ? [= <-].
  - by intros ? [=].
Qed.

Lemma keeps_is_finish n : keeps I (is_finish n) (fun _ => True).
Proof.
  unfold is_finish. eapply keeps_bind.
  - apply (keeps_read_node n (fun _ => True)). done.
  - intros nd _. by apply keeps_ret.
Qed.

Hypothesis I_drawn : forall s, I s -> I (drawn s).

Lemma keeps_random_event : keeps I random_event (fun _ => True).
Proof. intros s HI. split; [by apply I_drawn|done]. Qed.

Lemma keeps_choice p items : keeps I (choice p items) (fun a => a ∈ items).
Proof.
  intros s HI. unfold choice. destruct items as [|x items]; [by split|].
  set (i := _ mod _).
  destruct (keeps_index (x :: items) i (drawn s) (I_drawn s HI)) as [H1 H2].
  split; [done|]. intros a Ha. eapply list_elem_of_lookup_2. eauto.
Qed.

End Keeps.

Lemma keeps_for_each {A} (I : store -> Prop) (f : nat -> M A) l :
  (forall x, keeps I (f x) (fun _ => True)) ->
  keeps I (for_each f l) (fun _ => True).
Proof.
  intros Hf. induction l as [|x l IH]; [by apply keeps_ret|].
  cbn [for_each]. eapply keeps_bind; [apply Hf|]. intros a _.
  eapply keeps_bind; [apply IH|]. intros r _. by apply keeps_ret.
Qed.

Lemma keeps_edge_criteria (I : store -> Prop) e c :
  keeps I (edge_criteria e c) (fun _ => True).
Proof.
  unfold edge_criteria.
  eapply keeps_bind; [apply (keeps_read_edge I e (fun _ => True)); done|].
  intros ed _.
  eapply keeps_bind; [apply (keeps_read_node I _ (fun _ => True)); done|].
  intros p _.
  eapply (keeps_bind I _ _ (fun _ => True)).
  - destruct (parent_edge p); [|by apply keeps_ret].
    eapply keeps_bind; [apply (keeps_read_edge I _ (fun _ => True)); done|].
    intros ped _. by apply keeps_ret.
  - intros pv _. by apply keeps_ret.
Qed.

(** ** The selection phase *)

Lemma same_objects_drawn s0 s : same_objects s0 s -> same_objects s0 (drawn s).
Proof. by intros (? & ? & ? & ? & ?). Qed.

(** The walk changes no object, and it stops at a node without children. *)
Lemma select_keeps s0 fuel n :
  keeps (same_objects s0) (select fuel n)
    (fun cur => exists nd, nodes s0 !! cur = Some nd /\ children nd = []).
Proof.
  revert n. induction fuel as [|fuel IH]; intros n; [apply keeps_raise|].
  cbn [select]. unfold is_terminal.
  eapply keeps_bind.
  { eapply keeps_bind.
    - apply (keeps_read_node _ n
        (fun nd => nodes s0 !! n = Some nd)).
      intros s nd (Hn & _) Hnd. by rewrite <- Hn.
    - intros nd Hnd.
      apply (keeps_ret _ _
        (fun b : bool => b = true -> exists nd, nodes s0 !! n = Some nd /\ children nd = [])).
      intros Hlen. exists nd. split; [done|].
      destruct (children nd); [done|discriminate]. }
  intros [|] Hleaf; [apply keeps_ret; auto|].
  eapply keeps_bind; [apply (keeps_read_node _ n (fun _ => True)); done|].
  intros nd _.
  eapply keeps_bind; [apply keeps_for_each; intros; apply keeps_edge_criteria|].
  intros scores _.
  eapply keeps_bind; [apply keeps_lift|]. intros weights _.
  eapply keeps_bind; [apply keeps_choice, same_objects_drawn|]. intros action _.
  eapply keeps_bind; [apply (keeps_read_edge _ _ (fun _ => True)); done|].
  intros aed _. apply IH.
Qed.

Lemma select_spec fuel s s1 cur :
  select fuel (root s) s = (s1, Ok cur) ->
  same_objects s s1 /\ exists nd, nodes s1 !! cur = Some nd /\ children nd = [].
Proof.
  intros Hsel.
  destruct (select_keeps s fuel (root s) s) as [Hsame Hres].
  { by repeat split. }
  rewrite Hsel in Hsame, Hres. simpl in *. split; [done|].
  destruct (Hres cur eq_refl) as (nd & Hnd & Hch).
  exists nd. destruct Hsame as (-> & _). done.
Qed.

Lemma fit_unfold fuel s s1 cur nd :
  select fuel (root s) s = (s1, Ok cur) ->
  nodes s1 !! cur = Some nd ->
  _fit fuel s =
    if length (available (payload nd)) =? 0 then
      match parent_edge nd with
      | Some pe =>
          update fuel pe (get_reward (payload nd) (node_turn (payload nd))) s1
      | None => (s1, Ok tt)
      end
    else bind (expansion cur) (fun _ => roll_out fuel cur) s1.
Proof.
  intros Hsel Hnd. unfold _fit.
  rewrite (bind_ok _ _ s s (root s)) by done.
  rewrite (bind_ok _ _ _ _ _ Hsel).
  rewrite (bind_ok _ _ _ _ _ (is_finish_eq _ _ _ Hnd)).
  destruct (length (available (payload nd)) =? 0); [|done].
  rewrite (bind_ok _ _ _ _ _ (read_node_ok _ _ _ Hnd)).
  by destruct (parent_edge nd).
Qed.

(** [update] makes no object and changes no node. *)
Lemma update_keeps_nodes s0 fuel : forall e (r : num),
  keeps (fun s => nodes s = nodes s0 /\ next_node s = next_node s0 /\
                  next_edge s = next_edge s0 /\ root s = root s0)
    (update fuel e r) (fun _ => True).
Proof.
  assert (Hwrite : forall e (f : TreeEdge -> TreeEdge),
    keeps (fun s => nodes s = nodes s0 /\ next_node s = next_node s0 /\
                    next_edge s = next_edge s0 /\ root s = root s0)
      (bind (read_edge e) (fun ed => write_edge e (f ed))) (fun _ => True)).
  { intros e f s Hs. unfold bind, read_edge, write_edge.
    by destruct (edges s !! e). }
  induction fuel as [|fuel IH]; intros e r; [apply keeps_raise|].
  cbn [update].
  eapply keeps_bind; [apply (keeps_read_edge _ _ (fun _ => True)); done|]. intros ed _.
  eapply keeps_bind; [apply Hwrite|]. intros _ _.
  eapply keeps_bind; [apply (keeps_read_edge _ _ (fun _ => True)); done|]. intros ed1 _.
  eapply keeps_bind; [apply Hwrite|]. intros _ _.
  eapply keeps_bind; [apply (keeps_read_edge _ _ (fun _ => True)); done|]. intros ed2 _.
  eapply keeps_bind; [apply (keeps_read_node _ _ (fun _ => True)); done|]. intros p _.
  destruct (parent_edge p); [apply IH|by apply keeps_ret].
Qed.

(** C5.  When the node that the selection walk reaches is finished,
    the iteration expands nothing: the walk has changed no object, and
    the iteration leaves every node as it was and makes no object.
    When the node has a parent edge, the iteration is one [update] of
    that edge with the reward of the node for the player whose turn it
    is at the node; when the chain of parent edges above that edge ends,
    the iteration returns, the visit count of the edge has gone up by
    one and its value by that reward, so has every edge of the chain,
    once each, and every other edge is as it was.  When the node has no
    parent edge, the iteration returns at once and every edge, hence
    every statistic, is what it was. *)
Theorem fit_at_finished_node fuel s s1 cur nd :
  select fuel (root s) s = (s1, Ok cur) ->
  nodes s1 !! cur = Some nd ->
  available (payload nd) = [] ->
  same_objects s s1 /\
  nodes (fst (_fit fuel s)) = nodes s /\
  next_node (fst (_fit fuel s)) = next_node s /\
  next_edge (fst (_fit fuel s)) = next_edge s /\
  match parent_edge nd with
  | Some pe =>
      let r := get_reward (payload nd) (node_turn (payload nd)) in
      _fit fuel s = update fuel pe r s1 /\
      forall l, ancestors fuel s pe = Some l ->
        exists s' ed,
          _fit fuel s = (s', Ok tt) /\
          edges s !! pe = Some ed /\
          edges s' !! pe =
            Some (mkTreeEdge (prior ed) (visit_count ed + 1) (add (value ed) r)
                             (parent ed) (child ed)) /\
          (forall x, x ∈ l -> edges s' !! x = bump r <$> edges s !! x) /\
          (forall x, x ∉ l -> edges s' !! x = edges s !! x)
  | None => _fit fuel s = (s1, Ok tt) /\ edges (fst (_fit fuel s)) = edges s
  end.
Proof.
  intros Hsel Hnd Hfin.
  destruct (select_spec _ _ _ _ Hsel) as [Hsame _].
  assert (Hfit : _fit fuel s =
    match parent_edge nd with
    | Some pe =>
        update fuel pe (get_reward (payload nd) (node_turn (payload nd))) s1
    | None => (s1, Ok tt)
    end).
  { rewrite (fit_unfold _ _ _ _ _ Hsel Hnd), Hfin. reflexivity. }
  split; [done|].
  destruct Hsame as (Hn & He & Hnn & Hne & Hr).
  destruct (parent_edge nd) as [pe|].
  - destruct (update_keeps_nodes s1 fuel pe
                (get_reward (payload nd) (node_turn (payload nd))) s1)
      as [(Hn' & Hnn' & Hne' & _) _]; [done|].
    rewrite Hfit. rewrite Hn', Hnn', Hne'.
    do 3 (split; [done|]). cbv zeta. split; [done|].
    intros l Hl.
    assert (Hl1 : ancestors fuel s1 pe = Some l).
    { rewrite <- Hl. apply ancestors_ext; [done|]. intros x. by rewrite He. }
    destruct (update_ancestors _ _ _
                (get_reward (payload nd) (node_turn (payload nd))) _ Hl1)
      as (s' & Hup & _ & _ & _ & _ & _ & Hedges).
    destruct (ancestors_head _ _ _ _ Hl) as [Hpe [ed Hed]].
    exists s', ed. split_and!; try done.
    + rewrite Hedges, He, Hed. by rewrite bool_decide_eq_true_2.
    + intros x Hx. rewrite Hedges, He. by rewrite bool_decide_eq_true_2.
    + intros x Hx. rewrite Hedges, He. rewrite bool_decide_eq_false_2 by done.
      by destruct (edges s !! x).
  - rewrite Hfit. simpl. by rewrite Hn, Hnn, Hne, He.
Qed.

(** C4.  When the node that the selection walk reaches is not
    finished, the iteration expands it and then, for every child edge
    whose child node is not finished, asks the opponent for its reply
    to that child node and makes the children of the child node one
    edge of prior 1 from the child node to the reply; a child node that
    is finished keeps an empty list of children.  The roll-out starts
    from the store so obtained. *)
Theorem fit_folds_opponent fuel s s1 cur nd :
  select fuel (root s) s = (s1, Ok cur) ->
  nodes s1 !! cur = Some nd ->
  available (payload nd) <> [] ->
  cur < next_node s1 ->
  exists s2 ch,
    expansion cur s1 = (s2, Ok tt) /\
    _fit fuel s = roll_out fuel cur s2 /\
    nodes s2 !! cur = Some (mkTreeNode (parent_edge nd) ch (payload nd)) /\
    length ch = length (available (payload nd)) /\
    forall i st p, available (payload nd) !! i = Some (st, p) ->
      exists e c,
        ch !! i = Some e /\
        edges s2 !! e = Some (mkTreeEdge p 0 (of_nat 0) cur c) /\
        folded s2 c e st.
Proof.
  intros Hsel Hnd Hfin Hlt.
  destruct (select_spec _ _ _ _ Hsel) as (_ & nd' & Hnd' & Hch).
  rewrite Hnd in Hnd'. injection Hnd' as <-.
  destruct (expand_spec s1 cur nd Hnd Hch Hlt)
    as (sa & Hexp & Hnn & Hne & Hr & Hd & Hnode & Hnew & Hold & Heold).
  set (av := available (payload nd)) in *.
  destruct (fold_opponent_spec cur av (next_edge s1) (next_node s1) sa)
    as (s2 & Hfold & Hnn2 & Hne2 & Hr2 & Hch2 & Hold2 & Heold2); [lia|lia|done|].
  assert (Hrun : expansion cur s1 = (s2, Ok tt)).
  { unfold expansion. rewrite (bind_ok _ _ _ _ _ Hexp).
    rewrite (bind_ok _ _ _ _ _ (read_node_ok _ _ _ Hnode)). exact Hfold. }
  exists s2, (seq (next_edge s1) (length av)). split_and!; try done.
  - rewrite (fit_unfold _ _ _ _ _ Hsel Hnd). fold av.
    destruct av; [done|]. cbn [length Nat.eqb].
    by rewrite (bind_ok _ _ _ _ _ Hrun).
  - rewrite Hold2 by lia. done.
  - by rewrite length_seq.
  - intros i st p Hi. pose proof (lookup_lt_Some _ _ _ Hi) as Hlen.
    exists (next_edge s1 + i), (next_node s1 + i). split_and!.
    + apply lookup_seq. done.
    + rewrite Heold2 by lia. by apply (Hnew i st p).
    + unfold folded.
      destruct (Hch2 i st p Hi) as [[Hav Hc]|(Hav & g & r & k & _ & _ & Hc & Hg & Hrn)].
      * by rewrite Hav.
      * destruct (available st); [done|]. exists g, r. split_and!; try done.
        eexists _, k. split; [exact Hrn|done].
Qed.

(** ** The roll-out works on new objects *)

Section Simulating.

Variable s0 : store.

Local Abbreviation I := (simulating s0).

Lemma simulating_start : allocated s0 -> I s0.
Proof.
  intros [Han Hae]. split.
  - by repeat split.
  - split.
    + intros i nd Hi Hnd. apply Han in Hnd. lia.
    + intros j ed Hj Hed. apply Hae in Hed. lia.
Qed.

Lemma simulating_drawn s : I s -> I (drawn s).
Proof. intros [(? & ? & ? & ? & ?) [? ?]]. by repeat split. Qed.

Lemma keeps_alloc_node : keeps I alloc_node (fun n => next_node s0 <= n).
Proof.
  intros s [(Hn & He & Hr & Hon & Hoe) [Hdn Hde]]. simpl. split.
  - split; [|by split]. repeat split; simpl; auto; lia.
  - intros a [= <-]. done.
Qed.

Lemma keeps_alloc_edge : keeps I alloc_edge (fun e => next_edge s0 <= e).
Proof.
  intros s [(Hn & He & Hr & Hon & Hoe) [Hdn Hde]]. simpl. split.
  - split; [|by split]. repeat split; simpl; auto; lia.
  - intros a [= <-]. done.
Qed.

Lemma keeps_write_node n nd :
  next_node s0 <= n ->
  Forall (fun e => next_edge s0 <= e) (children nd) ->
  keeps I (write_node n nd) (fun _ => True).
Proof.
  intros Hge Hch s [(Hn & He & Hr & Hon & Hoe) [Hdn Hde]]. simpl.
  split; [|done]. split.
  - repeat split; simpl; auto. intros i Hi. rewrite lookup_insert_ne by lia. auto.
  - split; simpl; [|done]. intros i nd' Hi.
    destruct (decide (n = i)) as [->|Hne].
    + rewrite lookup_insert_eq. by intros [= <-].
    + rewrite lookup_insert_ne by done. eauto.
Qed.

Lemma keeps_write_edge e ed :
  next_edge s0 <= e ->
  next_node s0 <= child ed ->
  keeps I (write_edge e ed) (fun _ => True).
Proof.
  intros Hge Hch s [(Hn & He & Hr & Hon & Hoe) [Hdn Hde]]. simpl.
  split; [|done]. split.
  - repeat split; simpl; auto. intros j Hj. rewrite lookup_insert_ne by lia. auto.
  - split; simpl; [done|]. intros j ed' Hj.
    destruct (decide (e = j)) as [->|Hne].
    + rewrite lookup_insert_eq. by intros [= <-].
    + rewrite lookup_insert_ne by done. eauto.
Qed.

(** Reading a new node yields new edges; reading a new edge, a new child. *)
Lemma keeps_read_new_node n :
  next_node s0 <= n ->
  keeps I (read_node n) (fun nd => Forall (fun e => next_edge s0 <= e) (children nd)).
Proof.
  intros Hge. apply keeps_read_node. intros s nd [_ [Hdn _]] Hnd. eauto.
Qed.

Lemma keeps_read_new_edge e :
  next_edge s0 <= e ->
  keeps I (read_edge e) (fun ed => next_node s0 <= child ed).
Proof.
  intros Hge. apply keeps_read_edge. intros s ed [_ [_ Hde]] Hed. eauto.
Qed.

Lemma keeps_TreeNode_init pe (st : St) :
  keeps I (TreeNode_init pe st) (fun n => next_node s0 <= n).
Proof.
  unfold TreeNode_init. eapply keeps_bind; [apply keeps_alloc_node|].
  intros n Hn. eapply keeps_bind; [by apply keeps_write_node|].
  intros _ _. by apply keeps_ret.
Qed.

Lemma keeps_TreeEdge_init (p : num) par ch :
  next_node s0 <= ch ->
  keeps I (TreeEdge_init p par ch) (fun e => next_edge s0 <= e).
Proof.
  intros Hch. unfold TreeEdge_init. eapply keeps_bind; [apply keeps_alloc_edge|].
  intros e He. eapply keeps_bind; [by apply keeps_write_edge|].
  intros _ _. by apply keeps_ret.
Qed.

Lemma keeps_set_parent_edge n pe :
  next_node s0 <= n -> keeps I (set_parent_edge n pe) (fun _ => True).
Proof.
  intros Hn. unfold set_parent_edge.
  eapply keeps_bind; [by apply keeps_read_new_node|].
  intros nd Hnd. by apply keeps_write_node.
Qed.

Lemma keeps_set_children n ch :
  next_node s0 <= n ->
  Forall (fun e => next_edge s0 <= e) ch ->
  keeps I (set_children n ch) (fun _ => True).
Proof.
  intros Hn Hch. unfold set_children.
  eapply keeps_bind; [apply (keeps_read_node _ n (fun _ => True)); done|].
  intros nd _. by apply keeps_write_node.
Qed.

Lemma keeps_build_nodes (l : list (St * num)) :
  keeps I (build_nodes l) (Forall (fun c : nat * num => next_node s0 <= fst c)).
Proof.
  induction l as [|[st p] l IH]; [by apply keeps_ret|].
  cbn [build_nodes]. eapply keeps_bind; [apply keeps_TreeNode_init|].
  intros c Hc. eapply keeps_bind; [apply IH|].
  intros r Hr. apply keeps_ret. by constructor.
Qed.

Lemma keeps_expand_loop n (l : list (nat * num)) :
  next_node s0 <= n ->
  Forall (fun c : nat * num => next_node s0 <= fst c) l ->
  keeps I (expand_loop n l) (fun _ => True).
Proof.
  intros Hn. induction 1 as [|[c p] l Hc _ IH]; [by apply keeps_ret|].
  cbn [expand_loop]. simpl in Hc.
  eapply keeps_bind; [by apply keeps_TreeEdge_init|]. intros e He.
  eapply keeps_bind; [by apply keeps_set_parent_edge|]. intros _ _.
  eapply keeps_bind; [by apply keeps_read_new_node|]. intros nd Hnd.
  eapply keeps_bind; [|intros _ _; exact IH].
  apply keeps_set_children; [done|].
  apply Forall_app. split; [done|]. by constructor.
Qed.

Lemma keeps_expand n :
  next_node s0 <= n -> keeps I (expand n) (fun _ => True).
Proof.
  intros Hn. unfold expand.
  eapply keeps_bind; [apply (keeps_read_node _ n (fun _ => True)); done|].
  intros nd _. destruct (length (children nd) =? 0); [|apply keeps_raise].
  eapply keeps_bind.
  - unfold get_available_child_nodes.
    eapply keeps_bind; [apply (keeps_read_node _ n (fun _ => True)); done|].
    intros nd' _. apply keeps_build_nodes.
  - intros l Hl. by apply keeps_expand_loop.
Qed.

Lemma keeps_opponent_reply n :
  keeps I (opponent_reply n) (fun r => next_node s0 <= r).
Proof.
  unfold opponent_reply.
  eapply keeps_bind; [apply (keeps_read_node _ n (fun _ => True)); done|].
  intros nd _.
  eapply keeps_bind; [apply keeps_random_event, simulating_drawn|].
  intros i _. apply keeps_TreeNode_init.
Qed.

(** *** deepcopy *)

Lemma keeps_copy_edges_with (cp : nat -> memo -> M (nat * memo)) l :
  (forall e m, memo_new s0 m ->
     keeps I (cp e m) (fun r => next_edge s0 <= fst r /\ memo_new s0 (snd r))) ->
  forall m, memo_new s0 m ->
    keeps I (copy_edges_with cp l m)
      (fun r => Forall (fun e => next_edge s0 <= e) (fst r) /\ memo_new s0 (snd r)).
Proof.
  intros Hcp. induction l as [|e l IH]; intros m Hm; [by apply keeps_ret|].
  cbn [copy_edges_with]. eapply keeps_bind; [by apply Hcp|].
  intros r [Hr Hm1]. eapply keeps_bind; [by apply IH|].
  intros r' [Hr' Hm2]. apply keeps_ret. simpl. split; [by constructor|done].
Qed.

Lemma keeps_copy fuel :
  (forall n m, memo_new s0 m ->
     keeps I (copy_node fuel n m)
       (fun r => next_node s0 <= fst r /\ memo_new s0 (snd r))) /\
  (forall e m, memo_new s0 m ->
     keeps I (copy_edge fuel e m)
       (fun r => next_edge s0 <= fst r /\ memo_new s0 (snd r))).
Proof.
  induction fuel as [|fuel [IHn IHe]]; [split; intros; apply keeps_raise|].
  split.
  - intros n m Hm. cbn [copy_node].
    destruct (memo_nodes m !! n) as [n'|] eqn:Hmemo.
    { apply keeps_ret. split; [|done]. destruct Hm as [Hmn _]. eauto. }
    eapply keeps_bind; [apply (keeps_read_node _ n (fun _ => True)); done|].
    intros nd _. eapply keeps_bind; [apply keeps_alloc_node|]. intros n' Hn'.
    set (m1 := mkMemo _ _).
    assert (Hm1 : memo_new s0 m1).
    { destruct Hm as [Hmn Hme]. split; [|done]. intros k v. simpl.
      destruct (decide (n = k)) as [->|Hne].
      - rewrite lookup_insert_eq. by intros [= <-].
      - rewrite lookup_insert_ne by done. eauto. }
    eapply (keeps_bind _ _ _
      (fun r : option nat * memo =>
         (forall e, fst r = Some e -> next_edge s0 <= e) /\ memo_new s0 (snd r))).
    { destruct (parent_edge nd) as [e|]; [|by apply keeps_ret].
      eapply keeps_bind; [by apply IHe|]. intros r [Hr Hm2].
      apply keeps_ret. simpl. split; [by intros ? [= <-]|done]. }
    intros pe [_ Hm2].
    eapply keeps_bind; [by apply keeps_copy_edges_with|]. intros ch [Hch Hm3].
    eapply keeps_bind; [by apply keeps_write_node|]. intros _ _.
    by apply keeps_ret.
  - intros e m Hm. cbn [copy_edge].
    destruct (memo_edges m !! e) as [e'|] eqn:Hmemo.
    { apply keeps_ret. split; [|done]. destruct Hm as [_ Hme]. eauto. }
    eapply keeps_bind; [apply (keeps_read_edge _ e (fun _ => True)); done|].
    intros ed _. eapply keeps_bind; [apply keeps_alloc_edge|]. intros e' He'.
    set (m1 := mkMemo _ _).
    assert (Hm1 : memo_new s0 m1).
    { destruct Hm as [Hmn Hme]. split; [done|]. intros k v. simpl.
      destruct (decide (e = k)) as [->|Hne].
      - rewrite lookup_insert_eq. by intros [= <-].
      - rewrite lookup_insert_ne by done. eauto. }
    eapply keeps_bind; [by apply IHn|]. intros p [Hp Hm2].
    eapply keeps_bind; [by apply IHn|]. intros c [Hc Hm3].
    eapply keeps_bind; [by apply keeps_write_edge|]. intros _ _.
    by apply keeps_ret.
Qed.

Lemma keeps_deepcopy fuel n :
  keeps I (deepcopy fuel n) (fun r => next_node s0 <= r).
Proof.
  unfold deepcopy. eapply keeps_bind.
  - apply keeps_copy. split; intros k v; simpl; by rewrite lookup_empty.
  - intros r [Hr _]. by apply keeps_ret.
Qed.

(** *** The loop *)

Lemma keeps_roll_out_loop fuel : forall n first_turn opp_turn,
  next_node s0 <= n ->
  keeps I (roll_out_loop fuel n first_turn opp_turn) (fun r => next_node s0 <= r).
Proof.
  induction fuel as [|fuel IH]; intros n first_turn opp_turn Hn;
    [apply keeps_raise|].
  cbn [roll_out_loop].
  eapply keeps_bind; [apply keeps_is_finish|]. intros [|] _; [by apply keeps_ret|].
  destruct (negb opp_turn); [|destruct first_turn].
  - eapply keeps_bind; [by apply keeps_expand|]. intros _ _.
    eapply keeps_bind; [by apply keeps_read_new_node|]. intros nd Hnd.
    eapply keeps_bind; [apply keeps_choice, simulating_drawn|]. intros action Ha.
    eapply keeps_bind.
    + apply keeps_read_new_edge. rewrite Forall_forall in Hnd. auto.
    + intros aed Haed. by apply IH.
  - eapply keeps_bind; [by apply keeps_read_new_node|]. intros nd Hnd.
    eapply keeps_bind; [apply keeps_index|]. intros e0 He0.
    eapply keeps_bind.
    + apply keeps_read_new_edge. rewrite Forall_forall in Hnd.
      apply Hnd. simpl in He0. by eapply list_elem_of_lookup_2.
    + intros ed Hed. by apply IH.
  - eapply keeps_bind; [apply keeps_opponent_reply|]. intros r Hr. by apply IH.
Qed.

Lemma keeps_simulation fuel sel_node :
  keeps I (simulation fuel sel_node) (fun _ => True).
Proof.
  unfold simulation.
  eapply keeps_bind; [apply (keeps_read_node _ _ (fun _ => True)); done|]. intros nd _.
  eapply keeps_bind; [apply keeps_choice, simulating_drawn|]. intros sel_action _.
  eapply keeps_bind; [apply (keeps_read_edge _ _ (fun _ => True)); done|]. intros sa _.
  eapply keeps_bind; [apply keeps_deepcopy|]. intros r Hr.
  eapply keeps_bind; [by apply keeps_roll_out_loop|]. intros final _.
  eapply keeps_bind; [apply (keeps_read_node _ _ (fun _ => True)); done|]. intros fnd _.
  eapply keeps_bind; [apply (keeps_read_node _ _ (fun _ => True)); done|]. intros sn _.
  by apply keeps_ret.
Qed.

End Simulating.

(** C7.  The simulation of the roll-out phase, that is the deep copy of
    the child node of the selected action, the expansions, the random
    descents and the replies of the opponent, leaves every node and
    every edge of the store it starts from as it is, statistics
    included, and leaves the [root] field as it is; all it writes are
    new objects.  The roll-out phase is this simulation followed, when
    the simulation returns, by the one call [sel_action.update(reward)],
    which is therefore the only change to the statistics of the
    persisted tree. *)
Theorem roll_out_leaves_tree fuel sel_node s :
  allocated s ->
  exists s_sim r,
    simulation fuel sel_node s = (s_sim, r) /\
    (forall i nd, nodes s !! i = Some nd -> nodes s_sim !! i = Some nd) /\
    (forall j ed, edges s !! j = Some ed -> edges s_sim !! j = Some ed) /\
    root s_sim = root s /\
    roll_out fuel sel_node s =
      match r with
      | Ok (sel_action, reward) => update fuel sel_action reward s_sim
      | Raise e => (s_sim, Raise e)
      end.
Proof.
  intros Halloc.
  destruct (keeps_simulation s fuel sel_node s (simulating_start s Halloc))
    as [[(Hn & He & Hr & Hon & Hoe) _] _].
  destruct (simulation fuel sel_node s) as [s_sim r] eqn:Hsim. simpl in *.
  exists s_sim, r. destruct Halloc as [Han Hae]. split_and!; try done.
  - intros i nd Hnd. rewrite Hon; [done|]. by apply Han in Hnd.
  - intros j ed Hed. rewrite Hoe; [done|]. by apply Hae in Hed.
  - unfold roll_out, bind. rewrite Hsim. destruct r as [[a rw]|e]; done.
Qed.

(** ** Every operation of the engine keeps the store allocated *)

Section Allocated.

Local Abbreviation allocated_from := (@allocated_from num St).

Lemma allocated_from_drawn bn be s :
  allocated_from bn be s -> allocated_from bn be (drawn s).
Proof. by intros ([? ?] & ? & ?). Qed.

Lemma keeps_allocated_TreeNode_init bn be pe (st : St) :
  keeps (allocated_from bn be) (TreeNode_init pe st) (fun _ => True).
Proof.
  intros s ([Hn He] & Hbn & Hbe). rewrite TreeNode_init_eq. simpl.
  split; [|done]. split; [split|]; simpl; [| |lia].
  - apply map_Forall_insert_2; [lia|].
    intros i nd Hi. apply Hn in Hi. simpl in *. lia.
  - done.
Qed.

Lemma keeps_allocated_TreeEdge_init bn be (p : num) par ch :
  keeps (allocated_from bn be) (TreeEdge_init p par ch) (fun _ => True).
Proof.
  intros s ([Hn He] & Hbn & Hbe). rewrite TreeEdge_init_eq. simpl.
  split; [|done]. split; [split|]; simpl; [| |lia].
  - done.
  - apply map_Forall_insert_2; [lia|].
    intros j ed Hj. apply He in Hj. simpl in *. lia.
Qed.

Lemma keeps_allocated_write_read_node bn be n (f : TreeNode -> TreeNode) :
  keeps (allocated_from bn be)
    (bind (read_node n) (fun nd => write_node n (f nd))) (fun _ => True).
Proof.
  intros s ([Hn He] & Hbn & Hbe). unfold bind, read_node, write_node.
  destruct (nodes s !! n) as [nd|] eqn:Hnd; simpl; (split; [|done]);
    [|by repeat split].
  split; [split|]; simpl; [|done|lia].
  apply map_Forall_insert_2; [|done]. by apply Hn in Hnd.
Qed.

Lemma keeps_allocated_write_read_edge bn be e (f : TreeEdge -> TreeEdge) :
  keeps (allocated_from bn be)
    (bind (read_edge e) (fun ed => write_edge e (f ed))) (fun _ => True).
Proof.
  intros s ([Hn He] & Hbn & Hbe). unfold bind, read_edge, write_edge.
  destruct (edges s !! e) as [ed|] eqn:Hed; simpl; (split; [|done]);
    [|by repeat split].
  split; [split|]; simpl; [done| |lia].
  apply map_Forall_insert_2; [|done]. by apply He in Hed.
Qed.

Lemma keeps_allocated_set_children bn be n ch :
  keeps (allocated_from bn be) (set_children n ch) (fun _ => True).
Proof.
  apply (keeps_allocated_write_read_node bn be n
           (fun nd => mkTreeNode (parent_edge nd) ch (payload nd))).
Qed.

Lemma keeps_allocated_set_parent_edge bn be n pe :
  keeps (allocated_from bn be) (set_parent_edge n pe) (fun _ => True).
Proof.
  apply (keeps_allocated_write_read_node bn be n
           (fun nd => mkTreeNode pe (children nd) (payload nd))).
Qed.

Lemma keeps_allocated_set_value bn be e (v : num) :
  keeps (allocated_from bn be) (set_value e v) (fun _ => True).
Proof.
  apply (keeps_allocated_write_read_edge bn be e
           (fun ed => mkTreeEdge (prior ed) (visit_count ed) v (parent ed) (child ed))).
Qed.

Lemma keeps_allocated_set_visit_count bn be e c :
  keeps (allocated_from bn be) (set_visit_count e c) (fun _ => True).
Proof.
  apply (keeps_allocated_write_read_edge bn be e
           (fun ed => mkTreeEdge (prior ed) c (value ed) (parent ed) (child ed))).
Qed.

Ltac reads :=
  first [ apply (keeps_read_node _ _ (fun _ => True)); done
        | apply (keeps_read_edge _ _ (fun _ => True)); done ].

Lemma keeps_allocated_update bn be fuel : forall e (r : num),
  keeps (allocated_from bn be) (update fuel e r) (fun _ => True).
Proof.
  induction fuel as [|fuel IH]; intros e r; [apply keeps_raise|].
  cbn [update].
  eapply keeps_bind; [reads|]. intros ed _.
  eapply keeps_bind; [apply keeps_allocated_set_value|]. intros _ _.
  eapply keeps_bind; [reads|]. intros ed1 _.
  eapply keeps_bind; [apply keeps_allocated_set_visit_count|]. intros _ _.
  eapply keeps_bind; [reads|]. intros ed2 _.
  eapply keeps_bind; [reads|]. intros p _.
  destruct (parent_edge p); [apply IH|by apply keeps_ret].
Qed.

Lemma keeps_allocated_build_nodes bn be (l : list (St * num)) :
  keeps (allocated_from bn be) (build_nodes l) (fun _ => True).
Proof.
  induction l as [|[st p] l IH]; [by apply keeps_ret|].
  cbn [build_nodes].
  eapply keeps_bind; [apply keeps_allocated_TreeNode_init|]. intros c _.
  eapply keeps_bind; [apply IH|]. intros r _. by apply keeps_ret.
Qed.

Lemma keeps_allocated_expand_loop bn be n (l : list (nat * num)) :
  keeps (allocated_from bn be) (expand_loop n l) (fun _ => True).
Proof.
  induction l as [|[c p] l IH]; [by apply keeps_ret|].
  cbn [expand_loop].
  eapply keeps_bind; [apply keeps_allocated_TreeEdge_init|]. intros e _.
  eapply keeps_bind; [apply keeps_allocated_set_parent_edge|]. intros _ _.
  eapply keeps_bind; [reads|]. intros nd _.
  eapply keeps_bind; [apply keeps_allocated_set_children|]. intros _ _.
  apply IH.
Qed.

Lemma keeps_allocated_expand bn be n :
  keeps (allocated_from bn be) (expand n) (fun _ => True).
Proof.
  unfold expand. eapply keeps_bind; [reads|]. intros nd _.
  destruct (length (children nd) =? 0); [|apply keeps_raise].
  eapply keeps_bind; [|intros l _; apply keeps_allocated_expand_loop].
  unfold get_available_child_nodes.
  eapply keeps_bind; [reads|]. intros nd' _. apply keeps_allocated_build_nodes.
Qed.

Lemma keeps_allocated_opponent_reply bn be n :
  keeps (allocated_from bn be) (opponent_reply n) (fun _ => True).
Proof.
  unfold opponent_reply. eapply keeps_bind; [reads|]. intros nd _.
  eapply keeps_bind; [apply keeps_random_event, allocated_from_drawn|]. intros i _.
  apply keeps_allocated_TreeNode_init.
Qed.

Lemma keeps_allocated_fold_opponent bn be l :
  keeps (allocated_from bn be) (fold_opponent l) (fun _ => True).
Proof.
  induction l as [|e l IH]; [by apply keeps_ret|].
  cbn [fold_opponent].
  eapply keeps_bind; [reads|]. intros ed _.
  eapply keeps_bind; [apply keeps_is_finish|]. intros fin _.
  eapply keeps_bind; [|intros _ _; apply IH].
  destruct (negb fin); [|by apply (keeps_ret _ _ (fun _ => True))].
  eapply keeps_bind; [apply keeps_allocated_opponent_reply|]. intros g _.
  eapply keeps_bind; [apply keeps_allocated_TreeEdge_init|]. intros e' _.
  apply keeps_allocated_set_children.
Qed.

Lemma keeps_allocated_expansion bn be n :
  keeps (allocated_from bn be) (expansion n) (fun _ => True).
Proof.
  unfold expansion.
  eapply keeps_bind; [apply keeps_allocated_expand|]. intros _ _.
  eapply keeps_bind; [reads|]. intros nd _. apply keeps_allocated_fold_opponent.
Qed.

Lemma keeps_allocated_select bn be fuel : forall n,
  keeps (allocated_from bn be) (select fuel n) (fun _ => True).
Proof.
  induction fuel as [|fuel IH]; intros n; [apply keeps_raise|].
  cbn [select]. unfold is_terminal.
  eapply (keeps_bind _ _ _ (fun _ => True)).
  { eapply keeps_bind; [reads|]. intros nd _. by apply keeps_ret. }
  intros [|] _; [by apply keeps_ret|].
  eapply keeps_bind; [reads|]. intros nd _.
  eapply keeps_bind; [apply keeps_for_each; intros; apply keeps_edge_criteria|].
  intros scores _.
  eapply keeps_bind; [apply keeps_lift|]. intros weights _.
  eapply keeps_bind; [apply keeps_choice, allocated_from_drawn|]. intros action _.
  eapply keeps_bind; [reads|]. intros aed _. apply IH.
Qed.

Lemma keeps_allocated_turn bn be node :
  keeps (allocated_from bn be) (turn node) (fun _ => True).
Proof.
  unfold turn.
  eapply (keeps_bind _ _ _ (fun _ => True)).
  { intros s Hs. split; [done|]. done. }
  intros r _.
  eapply keeps_bind; [reads|]. intros rn _.
  eapply keeps_bind; [reads|]. intros nn _.
  destruct (node_eq (payload rn) (payload nn)); [|apply keeps_raise].
  eapply keeps_bind.
  { apply keeps_for_each. intros c. unfold average.
    eapply keeps_bind; [reads|]. intros ed _. by apply keeps_ret. }
  intros averages _.
  eapply keeps_bind; [apply keeps_lift|]. intros idx _.
  eapply keeps_bind; [apply keeps_index|]. intros action _.
  eapply keeps_bind; [reads|]. intros aed _.
  eapply keeps_bind; [apply keeps_allocated_set_children|]. intros _ _.
  by apply keeps_ret.
Qed.

(** A new identity is below the counter from then on. *)
Lemma keeps_allocated_alloc_node {B} bn be (k : nat -> M B) (Q : B -> Prop) :
  (forall n, keeps (allocated_from (Nat.max bn (S n)) be) (k n) Q) ->
  keeps (allocated_from bn be) (bind alloc_node k) Q.
Proof.
  intros Hk s ([Hn He] & Hbn & Hbe). unfold bind at 1, alloc_node at 1.
  set (s1 := mkStore _ _ _ _ _ _).
  destruct (Hk (next_node s) s1) as [(Ha & Hbn' & Hbe') HQ].
  { split; [split|]; simpl; [| |lia].
    - intros i nd Hi. apply Hn in Hi. simpl in *. lia.
    - done. }
  split; [|done]. split; [done|]. lia.
Qed.

Lemma keeps_allocated_alloc_edge {B} bn be (k : nat -> M B) (Q : B -> Prop) :
  (forall e, keeps (allocated_from bn (Nat.max be (S e))) (k e) Q) ->
  keeps (allocated_from bn be) (bind alloc_edge k) Q.
Proof.
  intros Hk s ([Hn He] & Hbn & Hbe). unfold bind at 1, alloc_edge at 1.
  set (s1 := mkStore _ _ _ _ _ _).
  destruct (Hk (next_edge s) s1) as [(Ha & Hbn' & Hbe') HQ].
  { split; [split|]; simpl; [| |lia].
    - done.
    - intros j ed Hj. apply He in Hj. simpl in *. lia. }
  split; [|done]. split; [done|]. lia.
Qed.

Lemma keeps_allocated_write_node bn be n nd :
  n < bn -> keeps (allocated_from bn be) (write_node n nd) (fun _ => True).
Proof.
  intros Hlt s ([Hn He] & Hbn & Hbe). simpl. split; [|done].
  split; [split|]; simpl; [|done|lia].
  apply map_Forall_insert_2; [lia|done].
Qed.

Lemma keeps_allocated_write_edge bn be e ed :
  e < be -> keeps (allocated_from bn be) (write_edge e ed) (fun _ => True).
Proof.
  intros Hlt s ([Hn He] & Hbn & Hbe). simpl. split; [|done].
  split; [split|]; simpl; [done| |lia].
  apply map_Forall_insert_2; [lia|done].
Qed.

Lemma keeps_allocated_copy_edges_with (cp : nat -> memo -> M (nat * memo)) l :
  (forall bn be e m, keeps (allocated_from bn be) (cp e m) (fun _ => True)) ->
  forall bn be m,
    keeps (allocated_from bn be) (copy_edges_with cp l m) (fun _ => True).
Proof.
  intros Hcp. induction l as [|e l IH]; intros bn be m; [by apply keeps_ret|].
  cbn [copy_edges_with]. eapply keeps_bind; [apply Hcp|]. intros r _.
  eapply keeps_bind; [apply IH|]. intros r' _. by apply keeps_ret.
Qed.

Lemma keeps_allocated_copy fuel :
  (forall bn be n m,
     keeps (allocated_from bn be) (copy_node fuel n m) (fun _ => True)) /\
  (forall bn be e m,
     keeps (allocated_from bn be) (copy_edge fuel e m) (fun _ => True)).
Proof.
  induction fuel as [|fuel [IHn IHe]]; [split; intros; apply keeps_raise|].
  split.
  - intros bn be n m. cbn [copy_node].
    destruct (memo_nodes m !! n); [by apply keeps_ret|].
    eapply keeps_bind; [reads|]. intros nd _.
    apply keeps_allocated_alloc_node. intros n'.
    eapply (keeps_bind _ _ _ (fun _ => True)).
    { destruct (parent_edge nd); [|by apply keeps_ret].
      eapply keeps_bind; [apply IHe|]. intros r _. by apply keeps_ret. }
    intros pe _.
    eapply keeps_bind; [by apply keeps_allocated_copy_edges_with|]. intros ch _.
    eapply keeps_bind; [apply keeps_allocated_write_node; lia|]. intros _ _.
    by apply keeps_ret.
  - intros bn be e m. cbn [copy_edge].
    destruct (memo_edges m !! e); [by apply keeps_ret|].
    eapply keeps_bind; [reads|]. intros ed _.
    apply keeps_allocated_alloc_edge. intros e'.
    eapply keeps_bind; [apply IHn|]. intros p _.
    eapply keeps_bind; [apply IHn|]. intros c _.
    eapply keeps_bind; [apply keeps_allocated_write_edge; lia|]. intros _ _.
    by apply keeps_ret.
Qed.

Lemma keeps_allocated_roll_out_loop bn be fuel : forall n first_turn opp_turn,
  keeps (allocated_from bn be) (roll_out_loop fuel n first_turn opp_turn)
    (fun _ => True).
Proof.
  induction fuel as [|fuel IH]; intros n first_turn opp_turn; [apply keeps_raise|].
  cbn [roll_out_loop].
  eapply keeps_bind; [apply keeps_is_finish|]. intros [|] _; [by apply keeps_ret|].
  destruct (negb opp_turn); [|destruct first_turn].
  - eapply keeps_bind; [apply keeps_allocated_expand|]. intros _ _.
    eapply keeps_bind; [reads|]. intros nd _.
    eapply keeps_bind; [apply keeps_choice, allocated_from_drawn|]. intros a _.
    eapply keeps_bind; [reads|]. intros aed _. apply IH.
  - eapply keeps_bind; [reads|]. intros nd _.
    eapply keeps_bind; [apply keeps_index|]. intros e0 _.
    eapply keeps_bind; [reads|]. intros ed _. apply IH.
  - eapply keeps_bind; [apply keeps_allocated_opponent_reply|]. intros r _.
    apply IH.
Qed.

Lemma keeps_allocated_roll_out bn be fuel sel_node :
  keeps (allocated_from bn be) (roll_out fuel sel_node) (fun _ => True).
Proof.
  unfold roll_out, simulation.
  eapply (keeps_bind _ _ _ (fun _ => True)); [|intros; apply keeps_allocated_update].
  eapply keeps_bind; [reads|]. intros nd _.
  eapply keeps_bind; [apply keeps_choice, allocated_from_drawn|]. intros a _.
  eapply keeps_bind; [reads|]. intros sa _.
  eapply (keeps_bind _ _ _ (fun _ => True)).
  { unfold deepcopy. eapply keeps_bind; [apply keeps_allocated_copy|].
    intros r _. by apply keeps_ret. }
  intros r _.
  eapply keeps_bind; [apply keeps_allocated_roll_out_loop|]. intros final _.
  eapply keeps_bind; [reads|]. intros fnd _.
  eapply keeps_bind; [reads|]. intros sn _. by apply keeps_ret.
Qed.

Lemma keeps_allocated_fit_once bn be fuel :
  keeps (allocated_from bn be) (_fit fuel) (fun _ => True).
Proof.
  unfold _fit.
  eapply (keeps_bind _ _ _ (fun _ => True)); [by intros s Hs|]. intros r _.
  eapply keeps_bind; [apply keeps_allocated_select|]. intros cur _.
  eapply keeps_bind; [apply keeps_is_finish|]. intros [|] _.
  - eapply keeps_bind; [reads|]. intros nd _.
    destruct (parent_edge nd); [apply keeps_allocated_update|by apply keeps_ret].
  - eapply keeps_bind; [apply keeps_allocated_expansion|]. intros _ _.
    apply keeps_allocated_roll_out.
Qed.

End Allocated.

(** Training and committing, whatever their outcome, leave a store in
    which every object has an identity below the allocation counters. *)
Lemma fit_allocated fuel num_iter s :
  allocated s -> allocated (fst (fit fuel num_iter s)).
Proof.
  revert s. induction num_iter as [|k IH]; intros s Hs; [done|].
  cbn [fit]. unfold bind.
  destruct (keeps_allocated_fit_once 0 0 fuel s) as [(Ha & _) _].
  { split; [done|lia]. }
  destruct (_fit fuel s) as [s1 [[]|e]]; simpl in *; auto.
Qed.

Lemma turn_allocated node s :
  allocated s -> allocated (fst (turn node s)).
Proof.
  intros Hs. destruct (keeps_allocated_turn 0 0 node s) as [(Ha & _) _]; [|done].
  split; [done|lia].
Qed.

(** * Further properties of the engine *)

(** ** expand, is_terminal and is_finish *)

(** X3.  A second [expand()] on a node is rejected exactly when the
    node has a legal action: after a first [expand()] that returned, a
    second one raises an [AssertionError] if the node is not finished
    and returns if it is finished, and in both cases it leaves the
    store as the first call left it. *)
Theorem expand_twice s s1 n nd :
  allocated s ->
  nodes s !! n = Some nd ->
  expand n s = (s1, Ok tt) ->
  expand n s1 =
    (s1, match available (payload nd) with
         | [] => Ok tt
         | _ :: _ => Raise AssertionError
         end).
Proof.
  intros [Han _] Hn Hexp.
  pose proof (Han _ _ Hn) as Hlt. simpl in Hlt.
  destruct (children nd) as [|c ch] eqn:Hch.
  2:{ rewrite (expand_rejects s n nd Hn) in Hexp; [done|by rewrite Hch]. }
  destruct (expand_spec s n nd Hn Hch Hlt)
    as (s' & Hrun & _ & _ & _ & _ & Hnode & _).
  rewrite Hrun in Hexp. injection Hexp as ->.
  destruct (available (payload nd)) as [|a av] eqn:Hav.
  - unfold expand. rewrite (bind_ok _ _ _ _ _ (read_node_ok _ _ _ Hnode)).
    cbn [children length seq Nat.eqb]. unfold get_available_child_nodes.
    rewrite (bind_ok _ _ s1 s1 []); [done|].
    rewrite (bind_ok _ _ _ _ _ (read_node_ok _ _ _ Hnode)). cbn [payload].
    by rewrite Hav.
  - apply (expand_rejects s1 n _ Hnode). done.
Qed.

(** X4.  Once [expand()] has returned on a node, the node is terminal
    (has no children) exactly when it is finished (has no legal
    action): [is_terminal] and [is_finish] give the same answer. *)
Theorem expanded_terminal_iff_finished s s1 n :
  allocated s ->
  expand n s = (s1, Ok tt) ->
  exists b, is_terminal n s1 = (s1, Ok b) /\ is_finish n s1 = (s1, Ok b).
Proof.
  intros [Han _] Hexp.
  destruct (nodes s !! n) as [nd|] eqn:Hn.
  2:{ unfold expand, bind, read_node in Hexp. by rewrite Hn in Hexp. }
  pose proof (Han _ _ Hn) as Hlt. simpl in Hlt.
  destruct (children nd) as [|c ch] eqn:Hch.
  2:{ rewrite (expand_rejects s n nd Hn) in Hexp; [done|by rewrite Hch]. }
  destruct (expand_spec s n nd Hn Hch Hlt)
    as (s' & Hrun & _ & _ & _ & _ & Hnode & _).
  rewrite Hrun in Hexp. injection Hexp as ->.
  exists (length (available (payload nd)) =? 0). split.
  - unfold is_terminal. rewrite (bind_ok _ _ _ _ _ (read_node_ok _ _ _ Hnode)).
    cbn [children]. by rewrite length_seq.
  - by rewrite (is_finish_eq _ _ _ Hnode).
Qed.

(** ** traverse *)

Lemma keeps_traverse_children (I : store -> Prop) (tr : nat -> M (list nat)) l :
  (forall n, keeps I (tr n) (fun _ => True)) ->
  keeps I (traverse_children tr l) (fun _ => True).
Proof.
  intros Htr. induction l as [|c l IH]; [by apply keeps_ret|].
  cbn [traverse_children].
  eapply keeps_bind; [apply (keeps_read_edge _ _ (fun _ => True)); done|]. intros ed _.
  eapply keeps_bind; [apply Htr|]. intros r _.
  eapply keeps_bind; [apply IH|]. intros rs _. by apply keeps_ret.
Qed.

Lemma keeps_traverse (I : store -> Prop) fuel : forall n,
  keeps I (traverse fuel n) (fun _ => True).
Proof.
  induction fuel as [|fuel IH]; intros n; [apply keeps_raise|].
  cbn [traverse].
  eapply keeps_bind; [apply (keeps_read_node _ _ (fun _ => True)); done|]. intros nd _.
  eapply keeps_bind; [by apply keeps_traverse_children|]. intros rest _.
  by apply keeps_ret.
Qed.

Lemma traverse_leaf fuel s n nd :
  nodes s !! n = Some nd -> children nd = [] ->
  traverse (S fuel) n s = (s, Ok [n]).
Proof.
  intros Hn Hch. cbn [traverse].
  rewrite (bind_ok _ _ _ _ _ (read_node_ok _ _ _ Hn)). by rewrite Hch.
Qed.

Lemma traverse_children_leaves fuel s k : forall eb nb,
  (forall i, i < k ->
     exists ed cn, edges s !! (eb + i) = Some ed /\ child ed = nb + i /\
       nodes s !! (nb + i) = Some cn /\ children cn = []) ->
  traverse_children (traverse (S fuel)) (seq eb k) s = (s, Ok (seq nb k)).
Proof.
  induction k as [|k IH]; intros eb nb Hk; [done|].
  cbn [seq traverse_children].
  destruct (Hk 0) as (ed & cn & Hed & Hc & Hcn & Hch); [lia|].
  rewrite Nat.add_0_r in Hed, Hc, Hcn.
  rewrite (bind_ok _ _ _ _ _ (read_edge_ok _ _ _ Hed)). rewrite Hc.
  rewrite (bind_ok _ _ _ _ _ (traverse_leaf fuel _ _ _ Hcn Hch)).
  assert (Hrest : traverse_children (traverse (S fuel)) (seq (S eb) k) s
                  = (s, Ok (seq (S nb) k))).
  { apply IH. intros i Hi.
    destruct (Hk (S i)) as (ed' & cn' & ? & ? & ? & ?); [lia|].
    exists ed', cn'.
    replace (S eb + i) with (eb + S i) by lia.
    replace (S nb + i) with (nb + S i) by lia. done. }
  by rewrite (bind_ok _ _ _ _ _ Hrest).
Qed.

(** X5.  [traverse()] only reads: whatever it returns, and also when
    it fails, the store after the call is the store before it. *)
Theorem traverse_reads_only fuel n s :
  fst (traverse fuel n s) = s /\ fst (tree_traverse fuel s) = s.
Proof.
  assert (Hnode : forall m, fst (traverse fuel m s) = s).
  { intros m. by destruct (keeps_traverse (fun s' => s' = s) fuel m s eq_refl). }
  split; [apply Hnode|]. unfold tree_traverse, bind, get_root. apply Hnode.
Qed.

(** X6.  On a node that [expand()] has just expanded, [traverse()]
    returns the node followed by its new child nodes, one per legal
    action and in the order of the enumeration, and [traverse()] on
    each of these child nodes returns that child alone. *)
Theorem traverse_after_expand fuel s s1 n nd :
  allocated s ->
  nodes s !! n = Some nd ->
  expand n s = (s1, Ok tt) ->
  exists cs,
    traverse (S (S fuel)) n s1 = (s1, Ok (n :: cs)) /\
    length cs = length (available (payload nd)) /\
    forall i c, cs !! i = Some c ->
      traverse (S fuel) c s1 = (s1, Ok [c]) /\
      exists cn st p, nodes s1 !! c = Some cn /\ payload cn = st /\
        available (payload nd) !! i = Some (st, p).
Proof.
  intros [Han _] Hn Hexp.
  pose proof (Han _ _ Hn) as Hlt. simpl in Hlt.
  destruct (children nd) as [|c0 ch] eqn:Hch.
  2:{ rewrite (expand_rejects s n nd Hn) in Hexp; [done|by rewrite Hch]. }
  destruct (expand_spec s n nd Hn Hch Hlt)
    as (s' & Hrun & _ & _ & _ & _ & Hnode & Hnew & _).
  rewrite Hrun in Hexp. injection Hexp as ->.
  set (av := available (payload nd)) in *.
  exists (seq (next_node s) (length av)). split_and!.
  - cbn [traverse]. rewrite (bind_ok _ _ _ _ _ (read_node_ok _ _ _ Hnode)).
    cbn [children].
    assert (Hrest : traverse_children (traverse (S fuel)) (seq (next_edge s) (length av)) s1
                    = (s1, Ok (seq (next_node s) (length av)))).
    { apply traverse_children_leaves. intros i Hi.
      destruct (lookup_lt_is_Some_2 av i Hi) as [[st p] Hi'].
      destruct (Hnew i st p Hi') as [He Hc]. eauto 10. }
    by rewrite (bind_ok _ _ _ _ _ Hrest).
  - by rewrite length_seq.
  - intros i c [-> Hi]%lookup_seq.
    destruct (lookup_lt_is_Some_2 av i Hi) as [[st p] Hi'].
    destruct (Hnew i st p Hi') as [He Hc]. split.
    + by apply (traverse_leaf fuel _ _ _ Hc).
    + eauto 10.
Qed.

(** ** turn, again *)

Lemma read_edge_inv s e s' ed :
  read_edge e s = (s', Ok ed) -> s' = s /\ edges s !! e = Some ed.
Proof. unfold read_edge. destruct (edges s !! e); naive_solver. Qed.

Lemma read_node_inv s n s' nd :
  read_node n s = (s', Ok nd) -> s' = s /\ nodes s !! n = Some nd.
Proof. unfold read_node. destruct (nodes s !! n); naive_solver. Qed.

Lemma index_inv {A} (l : list A) i s s' a :
  index l i s = (s', Ok a) -> s' = s /\ l !! i = Some a.
Proof. unfold index. destruct (l !! i); [|done]. by intros [= <- <-]. Qed.

(** The averages depend on the edges alone. *)
Lemma for_each_average_inv l s s1 avs :
  for_each average l s = (s1, Ok avs) ->
  s1 = s /\ forall s', edges s' = edges s -> for_each average l s' = (s', Ok avs).
Proof.
  revert s1 avs. induction l as [|c l IH]; intros s1 avs Hrun.
  - injection Hrun as <- <-. done.
  - cbn [for_each] in Hrun.
    apply bind_inv in Hrun as (s2 & a & Ha & Hrun).
    unfold average in Ha. apply bind_inv in Ha as (s3 & ed & Hed & Ha).
    apply read_edge_inv in Hed as [-> Hed]. injection Ha as <- <-.
    apply bind_inv in Hrun as (s4 & r & Hr & Hrun).
    destruct (IH _ _ Hr) as [-> Hother]. injection Hrun as <- <-.
    split; [done|]. intros s' Hs'. cbn [for_each]. unfold average at 1.
    assert (Hed' : edges s' !! c = Some ed) by by rewrite Hs'.
    erewrite bind_ok; [|erewrite bind_ok; [reflexivity|by apply read_edge_ok]].
    unfold ret at 1. by rewrite (bind_ok _ _ _ _ _ (Hother s' Hs')).
Qed.

(** What a call of [turn] that returns has done. *)
Lemma turn_inv s node s' c :
  turn node s = (s', Ok c) ->
  exists rn nn averages idx action aed cn,
    nodes s !! root s = Some rn /\
    nodes s !! node = Some nn /\
    node_eq (payload rn) (payload nn) = true /\
    for_each average (children rn) s = (s, Ok averages) /\
    argmax averages = Ok idx /\
    children rn !! idx = Some action /\
    edges s !! action = Some aed /\
    c = child aed /\
    nodes s !! c = Some cn /\
    s' = set_nodes (insert c (mkTreeNode (parent_edge cn) [] (payload cn))) s.
Proof.
  intros Hturn. unfold turn in Hturn.
  apply bind_inv in Hturn as (s1 & r & Hr & Hturn). injection Hr as <- <-.
  apply bind_inv in Hturn as (s1 & rn & Hrn & Hturn).
  apply read_node_inv in Hrn as [-> Hrn].
  apply bind_inv in Hturn as (s1 & nn & Hnn & Hturn).
  apply read_node_inv in Hnn as [-> Hnn].
  destruct (node_eq (payload rn) (payload nn)) eqn:Heq; [|done].
  apply bind_inv in Hturn as (s1 & averages & Havg & Hturn).
  destruct (for_each_average_inv _ _ _ _ Havg) as [-> _].
  apply bind_inv in Hturn as (s1 & idx & Hidx & Hturn).
  unfold lift in Hidx. injection Hidx as <- Hidx.
  apply bind_inv in Hturn as (s1 & action & Haction & Hturn).
  apply index_inv in Haction as [-> Haction].
  apply bind_inv in Hturn as (s1 & aed & Haed & Hturn).
  apply read_edge_inv in Haed as [-> Haed].
  apply bind_inv in Hturn as (s1 & [] & Hset & Hturn).
  injection Hturn as <- <-.
  unfold set_children in Hset.
  apply bind_inv in Hset as (s2 & cn & Hcn & Hset).
  apply read_node_inv in Hcn as [-> Hcn]. injection Hset as <-.
  exists rn, nn, averages, idx, action, aed, cn. split_and!; done.
Qed.

(** X7.  Committing twice gives the same move: when [turn(node)] has
    returned a child node other than the root, a second [turn(node)]
    returns the same child node and leaves the store as the first call
    left it. *)
Theorem turn_again s node s' c :
  turn node s = (s', Ok c) ->
  c <> root s ->
  turn node s' = (s', Ok c).
Proof.
  intros Hturn Hne.
  destruct (turn_inv _ _ _ _ Hturn)
    as (rn & nn & averages & idx & action & aed & cn
        & Hrn & Hnn & Heq & Havg & Hidx & Haction & Haed & -> & Hcn & ->).
  set (cn' := mkTreeNode (parent_edge cn) [] (payload cn)).
  set (s' := set_nodes (insert (child aed) cn') s).
  assert (Hrn' : nodes s' !! root s' = Some rn).
  { unfold s', set_nodes. simpl. by rewrite lookup_insert_ne. }
  assert (Hnn' : exists nn', nodes s' !! node = Some nn' /\ payload nn' = payload nn).
  { unfold s', set_nodes. simpl. destruct (decide (child aed = node)) as [<-|Hn].
    - rewrite lookup_insert_eq. exists cn'. split; [done|].
      rewrite Hcn in Hnn. by injection Hnn as <-.
    - rewrite lookup_insert_ne by done. eauto. }
  destruct Hnn' as (nn' & Hnn' & Hpay).
  rewrite (turn_unfold _ _ _ _ Hrn' Hnn'), Hpay, Heq.
  destruct (for_each_average_inv _ _ _ _ Havg) as [_ Hother].
  rewrite (bind_ok _ _ _ _ _ (Hother s' eq_refl)).
  rewrite (bind_ok _ _ s' s' idx) by (unfold lift; by rewrite Hidx).
  rewrite (bind_ok _ _ s' s' action) by (unfold index; by rewrite Haction).
  rewrite (bind_ok _ _ _ _ _ (read_edge_ok s' _ _ Haed)).
  assert (Hcn' : nodes s' !! child aed = Some cn').
  { unfold s', set_nodes. simpl. apply lookup_insert_eq. }
  rewrite (bind_ok _ _ _ _ _ (set_children_eq _ _ _ [] Hcn')).
  unfold ret. f_equal. unfold s', set_nodes. simpl.
  by rewrite insert_insert_eq.
Qed.

(** X8.  The node that [turn] returns has lost its subtree:
    [traverse()] on it returns that node alone. *)
Theorem traverse_after_turn fuel s node s' c :
  turn node s = (s', Ok c) ->
  traverse (S fuel) c s' = (s', Ok [c]).
Proof.
  intros Hturn.
  destruct (turn_inv _ _ _ _ Hturn)
    as (rn & nn & averages & idx & action & aed & cn
        & _ & _ & _ & _ & _ & _ & _ & -> & Hcn & ->).
  apply (traverse_leaf fuel _ _ (mkTreeNode (parent_edge cn) [] (payload cn)));
    [|reflexivity].
  unfold set_nodes. simpl. apply lookup_insert_eq.
Qed.

(** ** What training never undoes *)

Lemma keeps_weaken {A} (I : store -> Prop) (m : M A) (P Q : A -> Prop) :
  keeps I m P -> (forall a, P a -> Q a) -> keeps I m Q.
Proof. intros Hm HPQ s HI. destruct (Hm s HI). split; auto. Qed.

Section Growing.

Variable s0 : store.

Local Abbreviation I := (grows s0).

Lemma grows_drawn s : I s -> I (drawn s).
Proof. by intros (? & ? & ? & ? & ?). Qed.

Lemma grows_alloc_node : keeps I alloc_node (fun n => next_node s0 <= n).
Proof.
  intros s (Hn & He & Hr & Hnodes & Hedges). simpl. split.
  - repeat split; simpl; auto; lia.
  - by intros a [= <-].
Qed.

Lemma grows_alloc_edge : keeps I alloc_edge (fun e => next_edge s0 <= e).
Proof.
  intros s (Hn & He & Hr & Hnodes & Hedges). simpl. split.
  - repeat split; simpl; auto; lia.
  - by intros a [= <-].
Qed.

Lemma grows_write_node n nd :
  next_node s0 <= n -> keeps I (write_node n nd) (fun _ => True).
Proof.
  intros Hge s (Hn & He & Hr & Hnodes & Hedges). simpl. split; [|done].
  repeat split; simpl; auto.
  intros i nd0 Hi Hnd0. rewrite lookup_insert_ne by lia. auto.
Qed.

Lemma grows_write_edge e ed :
  next_edge s0 <= e -> keeps I (write_edge e ed) (fun _ => True).
Proof.
  intros Hge s (Hn & He & Hr & Hnodes & Hedges). simpl. split; [|done].
  repeat split; simpl; auto.
  intros j ed0 Hj Hed0. rewrite lookup_insert_ne by lia. auto.
Qed.

(** An assignment to the [children] of any node. *)
Lemma grows_set_children n ch : keeps I (set_children n ch) (fun _ => True).
Proof.
  intros s (Hn & He & Hr & Hnodes & Hedges).
  unfold set_children, bind, read_node, write_node.
  destruct (nodes s !! n) as [nd|] eqn:Hnd; simpl; (split; [|done]);
    [|by repeat split].
  repeat split; simpl; auto.
  intros i nd0 Hi Hnd0. destruct (decide (n = i)) as [->|Hne].
  - rewrite lookup_insert_eq. destruct (Hnodes i nd0 Hi Hnd0) as (nd' & Hnd' & ? & ?).
    rewrite Hnd in Hnd'. injection Hnd' as <-. eauto.
  - rewrite lookup_insert_ne by done. auto.
Qed.

(** An assignment to the [parent_edge] of a new node. *)
Lemma grows_set_parent_edge n pe :
  next_node s0 <= n -> keeps I (set_parent_edge n pe) (fun _ => True).
Proof.
  intros Hge. unfold set_parent_edge.
  eapply keeps_bind; [apply (keeps_read_node _ _ (fun _ => True)); done|].
  intros nd _. by apply grows_write_node.
Qed.

(** [update] where a reference leads nowhere. *)
Lemma update_step_no_edge fuel s e (r : num) :
  edges s !! e = None -> update (S fuel) e r s = (s, Raise InvalidRef).
Proof.
  intros He. cbn [update]. unfold bind, read_edge. cbn. by rewrite He.
Qed.

Lemma update_step_no_parent fuel s e (r : num) ed :
  edges s !! e = Some ed ->
  nodes s !! parent ed = None ->
  update (S fuel) e r s = (set_edges (insert e (bump r ed)) s, Raise InvalidRef).
Proof.
  intros He Hp. cbn [update].
  unfold bind, set_value, set_visit_count, bind, read_edge, write_edge, read_node.
  cbn. repeat (first [rewrite He | rewrite lookup_insert_eq | rewrite Hp]; cbn).
  unfold set_edges. cbn. by rewrite !insert_insert_eq.
Qed.

Lemma grows_bumped s e ed (r : num) :
  I s -> edges s !! e = Some ed -> I (set_edges (insert e (bump r ed)) s).
Proof.
  intros (Hn & He & Hr & Hnodes & Hedges) Hed.
  repeat split; simpl; auto.
  intros j ed0 Hj Hed0. destruct (decide (e = j)) as [->|Hne].
  - rewrite lookup_insert_eq.
    destruct (Hedges j ed0 Hj Hed0) as (ed' & Hed' & ? & ? & ? & ?).
    rewrite Hed in Hed'. injection Hed' as <-.
    eexists. split; [done|]. simpl. split_and!; try done. lia.
  - rewrite lookup_insert_ne by done. auto.
Qed.

Ltac reads :=
  first [ apply (keeps_read_node _ _ (fun _ => True)); done
        | apply (keeps_read_edge _ _ (fun _ => True)); done ].

Lemma grows_update fuel : forall e (r : num),
  keeps I (update fuel e r) (fun _ => True).
Proof.
  induction fuel as [|fuel IH]; intros e r; [apply keeps_raise|].
  intros s Hs.
  destruct (edges s !! e) as [ed|] eqn:He.
  2:{ by rewrite update_step_no_edge. }
  destruct (nodes s !! parent ed) as [p|] eqn:Hp.
  2:{ rewrite (update_step_no_parent _ _ _ _ _ He Hp). simpl.
      split; [by apply grows_bumped|done]. }
  rewrite (update_step _ _ _ _ _ _ He Hp).
  destruct (parent_edge p).
  - apply IH. by apply grows_bumped.
  - simpl. split; [by apply grows_bumped|done].
Qed.

Lemma grows_TreeNode_init pe (st : St) :
  keeps I (TreeNode_init pe st) (fun n => next_node s0 <= n).
Proof.
  unfold TreeNode_init. eapply keeps_bind; [apply grows_alloc_node|].
  intros n Hn. eapply keeps_bind; [by apply grows_write_node|].
  intros _ _. by apply keeps_ret.
Qed.

Lemma grows_TreeEdge_init (p : num) par ch :
  keeps I (TreeEdge_init p par ch) (fun _ => True).
Proof.
  unfold TreeEdge_init. eapply keeps_bind; [apply grows_alloc_edge|].
  intros e He. eapply keeps_bind; [by apply grows_write_edge|].
  intros _ _. by apply keeps_ret.
Qed.

Lemma grows_build_nodes (l : list (St * num)) :
  keeps I (build_nodes l) (Forall (fun c : nat * num => next_node s0 <= fst c)).
Proof.
  induction l as [|[st p] l IH]; [by apply keeps_ret|].
  cbn [build_nodes]. eapply keeps_bind; [apply grows_TreeNode_init|].
  intros c Hc. eapply keeps_bind; [apply IH|].
  intros r Hr. apply keeps_ret. by constructor.
Qed.

Lemma grows_expand_loop n (l : list (nat * num)) :
  Forall (fun c : nat * num => next_node s0 <= fst c) l ->
  keeps I (expand_loop n l) (fun _ => True).
Proof.
  induction 1 as [|[c p] l Hc _ IH]; [by apply keeps_ret|].
  cbn [expand_loop]. simpl in Hc.
  eapply keeps_bind; [apply grows_TreeEdge_init|]. intros e _.
  eapply keeps_bind; [by apply grows_set_parent_edge|]. intros _ _.
  eapply keeps_bind; [reads|]. intros nd _.
  eapply keeps_bind; [apply grows_set_children|]. intros _ _. exact IH.
Qed.

Lemma grows_expand n : keeps I (expand n) (fun _ => True).
Proof.
  unfold expand. eapply keeps_bind; [reads|]. intros nd _.
  destruct (length (children nd) =? 0); [|apply keeps_raise].
  eapply keeps_bind; [|intros l Hl; by apply grows_expand_loop].
  unfold get_available_child_nodes.
  eapply keeps_bind; [reads|]. intros nd' _. apply grows_build_nodes.
Qed.

Lemma grows_opponent_reply n : keeps I (opponent_reply n) (fun _ => True).
Proof.
  unfold opponent_reply. eapply keeps_bind; [reads|]. intros nd _.
  eapply keeps_bind; [apply keeps_random_event, grows_drawn|]. intros i _.
  eapply keeps_weaken; [apply grows_TreeNode_init|done].
Qed.

Lemma grows_fold_opponent l : keeps I (fold_opponent l) (fun _ => True).
Proof.
  induction l as [|e l IH]; [by apply keeps_ret|].
  cbn [fold_opponent].
  eapply keeps_bind; [reads|]. intros ed _.
  eapply keeps_bind; [apply keeps_is_finish|]. intros fin _.
  eapply keeps_bind; [|intros _ _; apply IH].
  destruct (negb fin); [|by apply (keeps_ret _ _ (fun _ => True))].
  eapply keeps_bind; [apply grows_opponent_reply|]. intros g _.
  eapply keeps_bind; [apply grows_TreeEdge_init|]. intros e' _.
  apply grows_set_children.
Qed.

Lemma grows_select fuel : forall n, keeps I (select fuel n) (fun _ => True).
Proof.
  induction fuel as [|fuel IH]; intros n; [apply keeps_raise|].
  cbn [select]. unfold is_terminal.
  eapply (keeps_bind _ _ _ (fun _ => True)).
  { eapply keeps_bind; [reads|]. intros nd _. by apply keeps_ret. }
  intros [|] _; [by apply keeps_ret|].
  eapply keeps_bind; [reads|]. intros nd _.
  eapply keeps_bind; [apply keeps_for_each; intros; apply keeps_edge_criteria|].
  intros scores _.
  eapply keeps_bind; [apply keeps_lift|]. intros weights _.
  eapply keeps_bind; [apply keeps_choice, grows_drawn|]. intros action _.
  eapply keeps_bind; [reads|]. intros aed _. apply IH.
Qed.

Lemma grows_copy_edges_with (cp : nat -> memo -> M (nat * memo)) l :
  (forall e m, keeps I (cp e m) (fun _ => True)) ->
  forall m, keeps I (copy_edges_with cp l m) (fun _ => True).
Proof.
  intros Hcp. induction l as [|e l IH]; intros m; [by apply keeps_ret|].
  cbn [copy_edges_with]. eapply keeps_bind; [apply Hcp|]. intros r _.
  eapply keeps_bind; [apply IH|]. intros r' _. by apply keeps_ret.
Qed.

Lemma grows_copy fuel :
  (forall n m, keeps I (copy_node fuel n m) (fun _ => True)) /\
  (forall e m, keeps I (copy_edge fuel e m) (fun _ => True)).
Proof.
  induction fuel as [|fuel [IHn IHe]]; [split; intros; apply keeps_raise|].
  split.
  - intros n m. cbn [copy_node].
    destruct (memo_nodes m !! n); [by apply keeps_ret|].
    eapply keeps_bind; [reads|]. intros nd _.
    eapply keeps_bind; [apply grows_alloc_node|]. intros n' Hn'.
    eapply (keeps_bind _ _ _ (fun _ => True)).
    { destruct (parent_edge nd); [|by apply keeps_ret].
      eapply keeps_bind; [apply IHe|]. intros r _. by apply keeps_ret. }
    intros pe _.
    eapply keeps_bind; [by apply grows_copy_edges_with|]. intros ch _.
    eapply keeps_bind; [by apply grows_write_node|]. intros _ _.
    by apply keeps_ret.
  - intros e m. cbn [copy_edge].
    destruct (memo_edges m !! e); [by apply keeps_ret|].
    eapply keeps_bind; [reads|]. intros ed _.
    eapply keeps_bind; [apply grows_alloc_edge|]. intros e' He'.
    eapply keeps_bind; [apply IHn|]. intros p _.
    eapply keeps_bind; [apply IHn|]. intros c _.
    eapply keeps_bind; [by apply grows_write_edge|]. intros _ _.
    by apply keeps_ret.
Qed.

Lemma grows_roll_out_loop fuel : forall n first_turn opp_turn,
  keeps I (roll_out_loop fuel n first_turn opp_turn) (fun _ => True).
Proof.
  induction fuel as [|fuel IH]; intros n first_turn opp_turn; [apply keeps_raise|].
  cbn [roll_out_loop].
  eapply keeps_bind; [apply keeps_is_finish|]. intros [|] _; [by apply keeps_ret|].
  destruct (negb opp_turn); [|destruct first_turn].
  - eapply keeps_bind; [apply grows_expand|]. intros _ _.
    eapply keeps_bind; [reads|]. intros nd _.
    eapply keeps_bind; [apply keeps_choice, grows_drawn|]. intros a _.
    eapply keeps_bind; [reads|]. intros aed _. apply IH.
  - eapply keeps_bind; [reads|]. intros nd _.
    eapply keeps_bind; [apply keeps_index|]. intros e0 _.
    eapply keeps_bind; [reads|]. intros ed _. apply IH.
  - eapply keeps_bind; [apply grows_opponent_reply|]. intros r _. apply IH.
Qed.

Lemma grows_roll_out fuel sel_node :
  keeps I (roll_out fuel sel_node) (fun _ => True).
Proof.
  unfold roll_out, simulation.
  eapply (keeps_bind _ _ _ (fun _ => True)); [|intros; apply grows_update].
  eapply keeps_bind; [reads|]. intros nd _.
  eapply keeps_bind; [apply keeps_choice, grows_drawn|]. intros a _.
  eapply keeps_bind; [reads|]. intros sa _.
  eapply (keeps_bind _ _ _ (fun _ => True)).
  { unfold deepcopy. eapply keeps_bind; [apply grows_copy|].
    intros r _. by apply keeps_ret. }
  intros r _.
  eapply keeps_bind; [apply grows_roll_out_loop|]. intros final _.
  eapply keeps_bind; [reads|]. intros fnd _.
  eapply keeps_bind; [reads|]. intros sn _. by apply keeps_ret.
Qed.

Lemma grows_fit_once fuel : keeps I (_fit fuel) (fun _ => True).
Proof.
  unfold _fit.
  eapply (keeps_bind _ _ _ (fun _ => True)); [by intros s Hs|]. intros r _.
  eapply keeps_bind; [apply grows_select|]. intros cur _.
  eapply keeps_bind; [apply keeps_is_finish|]. intros [|] _.
  - eapply keeps_bind; [reads|]. intros nd _.
    destruct (parent_edge nd); [apply grows_update|by apply keeps_ret].
  - eapply keeps_bind; [|intros _ _; apply grows_roll_out].
    unfold expansion. eapply keeps_bind; [apply grows_expand|]. intros _ _.
    eapply keeps_bind; [reads|]. intros nd _. apply grows_fold_opponent.
Qed.

Lemma grows_fit fuel num_iter : keeps I (fit fuel num_iter) (fun _ => True).
Proof.
  induction num_iter as [|k IH]; [by apply keeps_ret|].
  cbn [fit]. eapply keeps_bind; [apply grows_fit_once|]. intros _ _. exact IH.
Qed.

End Growing.

(** X1.  Training never undoes anything: after any number of
    iterations, whether the last one returned or raised, the tree has
    the same [root], every node that existed has kept its state and its
    parent edge, and every edge that existed has kept its prior, its
    parent and child nodes, and a visit count at least as large as
    before. *)
Theorem fit_only_grows fuel num_iter s :
  allocated s ->
  let s' := fst (fit fuel num_iter s) in
  root s' = root s /\
  (forall i nd0, nodes s !! i = Some nd0 ->
     exists nd, nodes s' !! i = Some nd /\
       payload nd = payload nd0 /\ parent_edge nd = parent_edge nd0) /\
  (forall j ed0, edges s !! j = Some ed0 ->
     exists ed, edges s' !! j = Some ed /\
       prior ed = prior ed0 /\ parent ed = parent ed0 /\ child ed = child ed0 /\
       visit_count ed0 <= visit_count ed).
Proof.
  intros [Han Hae] s'.
  destruct (grows_fit s fuel num_iter s) as [(_ & _ & Hr & Hnodes & Hedges) _].
  { split_and!; eauto 10. }
  split_and!; [done| |].
  - intros i nd0 Hnd0. apply Hnodes; [|done]. by apply Han in Hnd0.
  - intros j ed0 Hed0. apply Hedges; [|done]. by apply Hae in Hed0.
Qed.

(** ** One iteration, one reward *)

Lemma expansion_frame s n nd :
  nodes s !! n = Some nd ->
  children nd = [] ->
  n < next_node s ->
  exists s2,
    expansion n s = (s2, Ok tt) /\
    next_node s <= next_node s2 /\ next_edge s <= next_edge s2 /\
    root s2 = root s /\
    (forall j, j < next_edge s -> edges s2 !! j = edges s !! j) /\
    (forall i, i < next_node s -> i <> n -> nodes s2 !! i = nodes s !! i).
Proof.
  intros Hn Hch Hlt.
  destruct (expand_spec s n nd Hn Hch Hlt)
    as (sa & Hexp & Hnn & Hne & Hr & Hd & Hnode & Hnew & Hold & Heold).
  set (av := available (payload nd)) in *.
  destruct (fold_opponent_spec n av (next_edge s) (next_node s) sa)
    as (s2 & Hfold & Hnn2 & Hne2 & Hr2 & Hch2 & Hold2 & Heold2); [lia|lia|done|].
  exists s2. split_and!; try lia; try congruence.
  - unfold expansion. rewrite (bind_ok _ _ _ _ _ Hexp).
    rewrite (bind_ok _ _ _ _ _ (read_node_ok _ _ _ Hnode)). exact Hfold.
  - intros j Hj. rewrite Heold2 by lia. apply Heold. lia.
  - intros i Hi Hne'. rewrite Hold2 by lia. apply Hold; [done|lia].
Qed.

(** X9.  The expansion phase at a node without children always
    returns, finished or not; it changes no edge that existed, hence no
    statistic, and no node that existed other than the expanded one,
    and it leaves the [root] field as it is. *)
Theorem expansion_keeps_statistics s n nd :
  allocated s ->
  nodes s !! n = Some nd ->
  children nd = [] ->
  exists s2,
    expansion n s = (s2, Ok tt) /\
    root s2 = root s /\
    (forall j ed, edges s !! j = Some ed -> edges s2 !! j = Some ed) /\
    (forall i nd', i <> n -> nodes s !! i = Some nd' -> nodes s2 !! i = Some nd').
Proof.
  intros [Han Hae] Hn Hch.
  destruct (expansion_frame s n nd Hn Hch) as (s2 & Hrun & _ & _ & Hr & He & Hnd).
  { by apply Han in Hn. }
  exists s2. split_and!; try done.
  - intros j ed Hed. rewrite He; [done|]. by apply Hae in Hed.
  - intros i nd' Hi Hnd'. rewrite Hnd; [done| |done]. by apply Han in Hnd'.
Qed.

(** X2.  An iteration that returns has handed out one reward along one
    chain of edges: there are a reward and a list of distinct edges
    such that every edge that existed before the iteration is, after
    it, bumped once by that reward if it is in the list, and exactly as
    it was if it is not. *)
Theorem fit_once_single_reward fuel s s' :
  allocated s ->
  _fit fuel s = (s', Ok tt) ->
  exists (r : num) (l : list nat),
    NoDup l /\
    forall j ed, edges s !! j = Some ed ->
      edges s' !! j = Some (if bool_decide (j ∈ l) then bump r ed else ed).
Proof.
  intros Halloc Hfit. pose proof Halloc as [Han Hae].
  unfold _fit in Hfit.
  apply bind_inv in Hfit as (s0 & r0 & Hr0 & Hfit). injection Hr0 as <- <-.
  apply bind_inv in Hfit as (s1 & cur & Hsel & Hfit).
  destruct (select_spec _ _ _ _ Hsel) as ((Hn1 & He1 & Hnn1 & Hne1 & Hr1) & nd & Hnd & Hch).
  rewrite (bind_ok _ _ _ _ _ (is_finish_eq _ _ _ Hnd)) in Hfit.
  assert (Hupdate : forall sa e rw,
    (forall j, j < next_edge s -> edges sa !! j = edges s !! j) ->
    update fuel e rw sa = (s', Ok tt) ->
    exists (r : num) (l : list nat),
      NoDup l /\
      forall j ed, edges s !! j = Some ed ->
        edges s' !! j = Some (if bool_decide (j ∈ l) then bump r ed else ed)).
  { intros sa e rw Hsa Hup.
    destruct (update_returns _ _ _ _ _ Hup) as [l Hl].
    destruct (update_ancestors _ _ _ rw _ Hl) as (s'' & Hup' & _ & _ & _ & _ & _ & Hedges).
    rewrite Hup in Hup'. injection Hup' as <-.
    exists rw, l. split; [by eapply ancestors_NoDup|].
    intros j ed Hed. rewrite Hedges, Hsa by (by apply Hae in Hed).
    rewrite Hed. simpl. by destruct (bool_decide (j ∈ l)). }
  destruct (length (available (payload nd)) =? 0).
  - rewrite (bind_ok _ _ _ _ _ (read_node_ok _ _ _ Hnd)) in Hfit.
    destruct (parent_edge nd) as [pe|].
    + eapply (Hupdate s1 pe); [|exact Hfit]. intros j _. by rewrite He1.
    + injection Hfit as <-. exists (of_nat 0), []. split; [constructor|].
      intros j ed Hed. rewrite He1, Hed. done.
  - apply bind_inv in Hfit as (s2 & [] & Hexp & Hfit).
    unfold roll_out in Hfit.
    apply bind_inv in Hfit as (s3 & [a rw] & Hsim & Hfit). simpl in Hfit.
    assert (Hlt : cur < next_node s1).
    { rewrite Hnn1. apply (Han cur nd). by rewrite <- Hn1. }
    destruct (expansion_frame s1 cur nd Hnd Hch Hlt)
      as (s2' & Hexp' & _ & Hne2 & _ & He2 & _).
    rewrite Hexp in Hexp'. injection Hexp' as <-.
    assert (Halloc2 : allocated s2).
    { destruct (keeps_allocated_expansion 0 0 cur s1) as [(Ha & _) _].
      - split; [|lia]. split.
        + intros i x Hi. rewrite Hnn1. apply (Han i x). by rewrite <- Hn1.
        + intros j x Hj. rewrite Hne1. apply (Hae j x). by rewrite <- He1.
      - by rewrite Hexp in Ha. }
    destruct (keeps_simulation s2 fuel cur s2 (simulating_start s2 Halloc2))
      as [[(_ & _ & _ & _ & He3) _] _].
    rewrite Hsim in He3. simpl in He3.
    apply (Hupdate s3 a rw); [|exact Hfit].
    intros j Hj. rewrite He3 by lia. rewrite He2 by lia. by rewrite He1.
Qed.

(** ** The reward of a roll-out *)

Lemma roll_out_loop_finished fuel : forall n first_turn opp_turn s s' final,
  roll_out_loop fuel n first_turn opp_turn s = (s', Ok final) ->
  exists fnd, nodes s' !! final = Some fnd /\ available (payload fnd) = [].
Proof.
  induction fuel as [|fuel IH]; intros n first_turn opp_turn s s' final Hrun; [done|].
  cbn [roll_out_loop] in Hrun.
  apply bind_inv in Hrun as (s1 & fin & Hfin & Hrun).
  unfold is_finish in Hfin. apply bind_inv in Hfin as (s2 & nd & Hnd & Hfin).
  apply read_node_inv in Hnd as [-> Hnd]. injection Hfin as <- <-.
  destruct (length (available (payload nd)) =? 0) eqn:Hlen.
  - injection Hrun as <- <-. exists nd. split; [done|].
    apply Nat.eqb_eq in Hlen. by destruct (available (payload nd)).
  - destruct (negb opp_turn); [|destruct first_turn].
    + apply bind_inv in Hrun as (s1 & [] & _ & Hrun).
      apply bind_inv in Hrun as (s2 & nd' & _ & Hrun).
      apply bind_inv in Hrun as (s3 & action & _ & Hrun).
      apply bind_inv in Hrun as (s4 & aed & _ & Hrun). eauto.
    + apply bind_inv in Hrun as (s1 & nd' & _ & Hrun).
      apply bind_inv in Hrun as (s2 & e0 & _ & Hrun).
      apply bind_inv in Hrun as (s3 & ed & _ & Hrun). eauto.
    + apply bind_inv in Hrun as (s1 & r & _ & Hrun). eauto.
Qed.

(** X10.  The roll-out asks for a reward only at a finished node: when
    the simulation returns, the reward it passes to [update] is
    [get_reward] of a node that has no legal action, for the player
    whose turn it is at the node that was selected for expansion, and
    the edge it passes to [update] is a child edge of that node. *)
Theorem simulation_rewards_finished_node fuel sel_node s s' a (r : num) :
  simulation fuel sel_node s = (s', Ok (a, r)) ->
  exists nd final fnd sn,
    nodes s !! sel_node = Some nd /\ a ∈ children nd /\
    nodes s' !! final = Some fnd /\ available (payload fnd) = [] /\
    nodes s' !! sel_node = Some sn /\
    r = get_reward (payload fnd) (node_turn (payload sn)).
Proof.
  intros Hsim. unfold simulation in Hsim.
  apply bind_inv in Hsim as (s1 & nd & Hnd & Hsim).
  apply read_node_inv in Hnd as [-> Hnd].
  apply bind_inv in Hsim as (s1 & sel_action & Hsel & Hsim).
  assert (Hin : sel_action ∈ children nd).
  { destruct (keeps_choice (fun _ => True) (fun _ _ => Logic.I) None (children nd) s Logic.I)
      as [_ Hin]. apply Hin. by rewrite Hsel. }
  apply bind_inv in Hsim as (s2 & sa & _ & Hsim).
  apply bind_inv in Hsim as (s3 & rn & _ & Hsim).
  apply bind_inv in Hsim as (s4 & final & Hloop & Hsim).
  destruct (roll_out_loop_finished _ _ _ _ _ _ _ Hloop) as (fnd & Hfnd & Hfin).
  apply bind_inv in Hsim as (s5 & fnd' & Hfnd' & Hsim).
  apply read_node_inv in Hfnd' as [-> Hfnd']. rewrite Hfnd in Hfnd'.
  injection Hfnd' as <-.
  apply bind_inv in Hsim as (s5 & sn & Hsn & Hsim).
  apply read_node_inv in Hsn as [-> Hsn]. injection Hsim as <- <- <-.
  exists nd, final, fnd, sn. split_and!; done.
Qed.

(** ** Splitting the training *)

(** X11.  Training for [m + n] iterations is training for [m]
    iterations and then for [n]: the same store and the same outcome,
    and when one of the first [m] iterations raises, the later ones do
    not run. *)
Theorem fit_split fuel m n s :
  fit fuel (m + n) s = bind (fit fuel m) (fun _ => fit fuel n) s.
Proof.
  revert s. induction m as [|m IH]; intros s; [done|].
  cbn [Nat.add fit]. unfold bind.
  destruct (_fit fuel s) as [s1 [[]|e]]; [|done].
  rewrite IH. reflexivity.
Qed.

(** ** The selection walk *)

(** X12.  The selection walk only reads the tree: whether it returns
    or fails, every node and edge is as before, no object is created
    and the [root] field is the same; and the node it returns has no
    children. *)
Theorem select_stops_at_leaf fuel n s :
  same_objects s (fst (select fuel n s)) /\
  forall cur, snd (select fuel n s) = Ok cur ->
    exists nd, nodes s !! cur = Some nd /\ children nd = [].
Proof.
  apply (select_keeps s fuel n s). by repeat split.
Qed.

(** ** A roll-out from a finished node *)

Lemma choice_inv p items s s1 a :
  choice p items s = (s1, Ok a) -> s1 = drawn s /\ a ∈ items.
Proof.
  unfold choice. destruct items as [|x items]; [done|].
  intros [-> Ha]%index_inv. split; [done|]. by eapply list_elem_of_lookup_2.
Qed.

(** The copy that [deepcopy] returns has the state of the original. *)
Lemma deepcopy_payload fuel n s s' n' :
  deepcopy fuel n s = (s', Ok n') ->
  exists nd nd', nodes s !! n = Some nd /\ nodes s' !! n' = Some nd' /\
    payload nd' = payload nd.
Proof.
  unfold deepcopy. intros Hrun.
  apply bind_inv in Hrun as (s1 & [n1 m1] & Hcopy & Hrun).
  injection Hrun as <- <-. simpl.
  destruct fuel as [|fuel]; [done|]. cbn [copy_node] in Hcopy.
  cbn [memo_nodes] in Hcopy. rewrite lookup_empty in Hcopy.
  apply bind_inv in Hcopy as (s2 & nd & Hnd & Hcopy).
  apply read_node_inv in Hnd as [-> Hnd].
  apply bind_inv in Hcopy as (s2 & n2 & _ & Hcopy).
  apply bind_inv in Hcopy as (s3 & pe & _ & Hcopy).
  apply bind_inv in Hcopy as (s4 & ch & _ & Hcopy).
  apply bind_inv in Hcopy as (s5 & [] & Hwrite & Hcopy).
  injection Hcopy as <- <- <-. injection Hwrite as <-.
  exists nd. eexists. split; [done|]. split; [apply lookup_insert_eq|done].
Qed.

(** X13.  When the action that the roll-out picks leads to a finished
    node, the reward that is passed to [update] is the reward of that
    very node, for the player whose turn it is at the node that was
    selected for expansion. *)
Theorem simulation_at_finished_child fuel sel_node s s' a (r : num) nd sa cn :
  allocated s ->
  simulation fuel sel_node s = (s', Ok (a, r)) ->
  nodes s !! sel_node = Some nd ->
  edges s !! a = Some sa ->
  nodes s !! child sa = Some cn ->
  available (payload cn) = [] ->
  r = get_reward (payload cn) (node_turn (payload nd)).
Proof.
  intros Halloc Hsim Hnd Hsa Hcn Hfin. pose proof Halloc as [Han Hae].
  destruct (keeps_simulation s fuel sel_node s (simulating_start s Halloc))
    as [[(_ & _ & _ & Hnodes & _) _] _].
  rewrite Hsim in Hnodes. simpl in Hnodes.
  unfold simulation in Hsim.
  rewrite (bind_ok _ _ _ _ _ (read_node_ok _ _ _ Hnd)) in Hsim.
  apply bind_inv in Hsim as (s1 & sel_action & Hsel & Hsim).
  apply choice_inv in Hsel as [-> _].
  apply bind_inv in Hsim as (s2 & sa' & Hsa' & Hsim).
  apply read_edge_inv in Hsa' as [-> Hsa']. simpl in Hsa'.
  apply bind_inv in Hsim as (s3 & rn & Hcopy & Hsim).
  apply bind_inv in Hsim as (s4 & final & Hloop & Hsim).
  apply bind_inv in Hsim as (s5 & fnd & Hfnd & Hsim).
  apply read_node_inv in Hfnd as [-> Hfnd].
  apply bind_inv in Hsim as (s5 & sn & Hsn & Hsim).
  apply read_node_inv in Hsn as [-> Hsn].
  injection Hsim as <- <- <-.
  rewrite Hsa in Hsa'. injection Hsa' as <-.
  destruct (deepcopy_payload _ _ _ _ _ Hcopy) as (cn' & rnd & Hcn' & Hrnd & Hpay).
  simpl in Hcn'. rewrite Hcn in Hcn'. injection Hcn' as <-.
  destruct fuel as [|fuel]; [done|]. cbn [roll_out_loop] in Hloop.
  rewrite (bind_ok _ _ _ _ _ (is_finish_eq _ _ _ Hrnd)) in Hloop.
  rewrite Hpay, Hfin in Hloop. injection Hloop as <- <-.
  rewrite Hrnd in Hfnd. injection Hfnd as <-.
  rewrite Hnodes in Hsn by (by apply Han in Hnd).
  rewrite Hnd in Hsn. injection Hsn as <-.
  by rewrite Hpay.
Qed.

(** ** Committing and the statistics *)

(** X14.  Committing a move never touches a statistic: whether
    [turn(node)] returns or raises, every edge is exactly as before, no
    object is created, and the [root] field of the tree is the same. *)
Theorem turn_keeps_statistics node s :
  let s' := fst (turn node s) in
  edges s' = edges s /\ root s' = root s /\
  next_node s' = next_node s /\ next_edge s' = next_edge s.
Proof.
  set (I := fun s' : store =>
    edges s' = edges s /\ root s' = root s /\
    next_node s' = next_node s /\ next_edge s' = next_edge s).
  assert (Hturn : keeps I (turn node) (fun _ => True)).
  { unfold turn.
    eapply (keeps_bind _ _ _ (fun _ => True)); [by intros s1 Hs1|]. intros r _.
    eapply keeps_bind; [apply (keeps_read_node _ _ (fun _ => True)); done|]. intros rn _.
    eapply keeps_bind; [apply (keeps_read_node _ _ (fun _ => True)); done|]. intros nn _.
    destruct (node_eq (payload rn) (payload nn)); [|apply keeps_raise].
    eapply keeps_bind.
    { apply keeps_for_each. intros c. unfold average.
      eapply keeps_bind; [apply (keeps_read_edge _ _ (fun _ => True)); done|].
      intros ed _. by apply keeps_ret. }
    intros averages _.
    eapply keeps_bind; [apply keeps_lift|]. intros idx _.
    eapply keeps_bind; [apply keeps_index|]. intros action _.
    eapply keeps_bind; [apply (keeps_read_edge _ _ (fun _ => True)); done|]. intros aed _.
    eapply (keeps_bind _ _ _ (fun _ => True)); [|intros; by apply keeps_ret].
    intros s1 Hs1. unfold set_children, bind, read_node, write_node.
    by destruct (nodes s1 !! child aed). }
  destruct (Hturn s) as [H _]; [by repeat split|]. exact H.
Qed.

(** X15.  A NaN wins the arg-max: when the average value of a child
    edge of the root is NaN and no earlier child edge has a NaN
    average, [turn] returns the child node of that edge, whatever the
    averages of the other child edges are, and empties its children. *)
Theorem turn_returns_first_nan s node rn nn (eds : list TreeEdge) i aed cn :
  nodes s !! root s = Some rn ->
  nodes s !! node = Some nn ->
  node_eq (payload rn) (payload nn) = true ->
  Forall2 (fun c ed => edges s !! c = Some ed) (children rn) eds ->
  eds !! i = Some aed ->
  leb (mean aed) (mean aed) = false ->
  (forall j ed, j < i -> eds !! j = Some ed ->
     leb (mean ed) (mean ed) = true /\ leb (mean aed) (mean ed) = false) ->
  nodes s !! child aed = Some cn ->
  turn node s =
    (set_nodes (insert (child aed) (mkTreeNode (parent_edge cn) [] (payload cn))) s,
     Ok (child aed)).
Proof.
  intros Hr Hn Heq Heds Hi Hnan Hbefore Hcn.
  rewrite (turn_unfold _ _ _ _ Hr Hn), Heq.
  rewrite (bind_ok _ _ _ _ _ (for_each_average _ _ _ Heds)).
  assert (Harg : argmax (mean <$> eds) = Ok i).
  { rewrite <- (take_drop_middle eds i aed Hi) at 1.
    rewrite fmap_app, fmap_cons.
    rewrite argmax_nan; [|done|].
    - rewrite length_fmap, length_take. f_equal.
      apply lookup_lt_Some in Hi. lia.
    - intros y Hy. apply list_elem_of_fmap in Hy as (ed & -> & Hed).
      apply list_elem_of_lookup in Hed as [j Hj].
      apply lookup_take_Some in Hj as [Hj Hlt]. eauto. }
  rewrite (bind_ok _ _ s s i) by (unfold lift; by rewrite Harg).
  destruct (Forall2_lookup_r _ _ _ _ _ Heds Hi) as (action & Haction & Hedge).
  rewrite (bind_ok _ _ s s action) by (unfold index; by rewrite Haction).
  rewrite (bind_ok _ _ _ _ _ (read_edge_ok _ _ _ Hedge)).
  unfold set_children.
  erewrite bind_ok; [reflexivity|].
  rewrite (bind_ok _ _ _ _ _ (read_node_ok _ _ _ Hcn)). reflexivity.
Qed.

End Proofs.

(** * The properties at work on the countdown game *)

Import Example.

(** In [grown], the edge 2 hangs below the edge 0: an update of the
    edge 2 goes on to the edge 0 and returns, and of the three [calls]
    all reach the edge 0, which had one visit and the value 1/4. *)
Lemma update_conservation_witness :
  update 5 2 (1 # 2)%Q grown =
    update 4 0 (1 # 2)%Q
      (set_edges (insert 2 (bump (1 # 2)%Q (mkTreeEdge 1%Q 0 0%Q 1 3))) grown) /\
  (exists s', update 5 2 (1 # 2)%Q grown = (s', Ok tt)) /\
  edges (fst (updates 5 calls grown)) !! 0 =
    Some (mkTreeEdge (1 # 2)%Q 4 (74 # 24)%Q 0 1).
Proof.
  destruct (update_conservation 4 grown) as [Hstep _].
  destruct (update_conservation 5 grown) as (_ & Hreturns & Hsum).
  split; [|split].
  - apply (Hstep 2 (1 # 2)%Q (mkTreeEdge 1%Q 0 0%Q 1 3) (mkTreeNode (Some 0) [2] 2)).
    + vm_compute. reflexivity.
    + vm_compute. reflexivity.
  - apply (Hreturns 2 (1 # 2)%Q [2; 0]). vm_compute. reflexivity.
  - assert (Hrun : updates 5 calls grown = (fst (updates 5 calls grown), Ok tt))
      by (vm_compute; reflexivity).
    assert (Hx : edges grown !! 0 = Some (mkTreeEdge (1 # 2)%Q 1 (1 # 4)%Q 0 1))
      by (vm_compute; reflexivity).
    pose proof (Hsum calls _ 0 _ Hrun Hx) as H.
    vm_compute in H. vm_compute. exact H.
Defined.

(** The score of the edge 2 of [grown], whose parent node hangs below
    the edge 0, visited once. *)
Lemma edge_criteria_formula_witness :
  edge_criteria 2 default_c grown =
    (grown, Ok (add (div 0%Q (of_nat 1))
                    (div (mul (mul default_c 1%Q) (sqrt (of_nat 1))) (of_nat 1)))).
Proof.
  apply (edge_criteria_formula grown 2 default_c (mkTreeEdge 1%Q 0 0%Q 1 3) 1).
  - vm_compute. reflexivity.
  - vm_compute. reflexivity.
Defined.

(** The root of [initial 3] is equal to itself and has no children:
    [turn] on it returns no node. *)
Lemma turn_on_childless_root :
  root (initial 3) = 0 /\
  node_eq 3 3 = true /\
  turn 0 (initial 3) = (initial 3, Raise ValueError).
Proof. split; [reflexivity|]. split; [reflexivity|]. vm_compute. reflexivity. Qed.

Lemma turn_needs_a_child_witness :
  turn 0 (initial 3) = (initial 3, Raise ValueError).
Proof.
  destruct (turn_needs_a_child (initial 3) 0
              (mkTreeNode None [] 3) (mkTreeNode None [] 3)) as [Hraise _].
  - reflexivity.
  - reflexivity.
  - reflexivity.
  - apply Hraise. reflexivity.
Defined.

(** From [initial 3] the walk stays at the root, which is not finished:
    its two children, in the states 2 and 1, each get the reply of the
    opponent below them. *)
Lemma fit_folds_opponent_witness :
  exists s2 ch,
    _fit 20 (initial 3) = roll_out 20 0 s2 /\
    nodes s2 !! 0 = Some (mkTreeNode None ch 3) /\
    forall i st p, countdown_available 3 !! i = Some (st, p) ->
      exists e c, ch !! i = Some e /\
        edges s2 !! e = Some (mkTreeEdge p 0 (of_nat 0) 0 c) /\
        folded s2 c e st.
Proof.
  destruct (fit_folds_opponent 20 (initial 3) (initial 3) 0 (mkTreeNode None [] 3))
    as (s2 & ch & _ & Hfit & Hnode & _ & Hch).
  - vm_compute. reflexivity.
  - vm_compute. reflexivity.
  - discriminate.
  - simpl. lia.
  - exists s2, ch. auto.
Defined.

(** In [grown] after one draw, the walk ends at the node 12, which is
    finished and hangs below the edge 10, visited once with the value
    1/4; the chain of parent edges above it ends at once.  The node is
    in the state 0, where it is the turn of the player [true], whose
    reward there is 0: after the iteration the edge has two visits and
    the value 1/4 + 0, and the edge 0 is as it was. *)
Lemma fit_at_finished_node_witness :
  exists s',
    _fit 20 (drawn grown) = (s', Ok tt) /\
    edges s' !! 10 = Some (mkTreeEdge (1 # 2)%Q 2 ((1 # 4) + 0)%Q 3 12) /\
    edges s' !! 0 = edges (drawn grown) !! 0 /\
    nodes (fst (_fit 20 (drawn grown))) = nodes (drawn grown).
Proof.
  destruct (fit_at_finished_node 20 (drawn grown)
              (fst (select 20 0 (drawn grown))) 12 (mkTreeNode (Some 10) [] 0))
    as (_ & Hnodes & _ & _ & _ & Hbump).
  - vm_compute. reflexivity.
  - vm_compute. reflexivity.
  - reflexivity.
  - destruct (Hbump [10]) as (s' & ed & Hrun & Hed & Hpe & _ & Hout).
    + vm_compute. reflexivity.
    + exists s'. split; [exact Hrun|]. split; [|split; [|exact Hnodes]].
      * rewrite Hpe. vm_compute in Hed. injection Hed as <-. reflexivity.
      * apply Hout. intros Hin. apply list_elem_of_singleton in Hin. discriminate.
Defined.

(** The root of [grown] has children, the root of [initial 3] has none. *)
Lemma expand_once_witness :
  expand 0 grown = (grown, Raise AssertionError) /\
  exists s' ch,
    expand 0 (initial 3) = (s', Ok tt) /\
    nodes s' !! 0 = Some (mkTreeNode None ch 3) /\
    length ch = 2.
Proof.
  split.
  - destruct (expand_once grown 0 (mkTreeNode None [0; 1] 3)) as [Hreject _].
    + vm_compute. reflexivity.
    + vm_compute. lia.
    + apply Hreject. discriminate.
  - destruct (expand_once (initial 3) 0 (mkTreeNode None [] 3)) as [_ Hexpand].
    + reflexivity.
    + simpl. lia.
    + destruct (Hexpand eq_refl) as (s' & ch & Hrun & Hnode & Hlen & _).
      exists s', ch. auto.
Defined.

(** The roll-out below the root of [expanded]. *)
Lemma roll_out_leaves_tree_witness :
  exists s_sim r,
    simulation 20 0 expanded = (s_sim, r) /\
    (forall j ed, edges expanded !! j = Some ed -> edges s_sim !! j = Some ed) /\
    roll_out 20 0 expanded =
      match r with
      | Ok (sel_action, reward) => update 20 sel_action reward s_sim
      | Raise e => (s_sim, Raise e)
      end.
Proof.
  destruct (roll_out_leaves_tree 20 0 expanded)
    as (s_sim & r & Hsim & _ & Hedges & _ & Hroll).
  - apply (bool_decide_unpack _). vm_compute. reflexivity.
  - exists s_sim, r. auto.
Defined.

(** C8.  After the expansion phase at the root of [initial 3], the
    node 1 (state 2, not finished) has one child edge, the edge 2 of
    prior 1, which leads to the node 3 that holds the reply of the
    opponent; the parent edge of the node 3 is not the edge 2: it is
    still what the opponent made it, here [None].  After three
    training iterations from [initial 3], the edge 10 below the node 3
    has been updated once, and the edge 2 above the node 3 has not been
    updated at all. *)
Theorem reply_node_lacks_parent_edge :
  nodes expanded !! 1 = Some (mkTreeNode (Some 0) [2] 2) /\
  edges expanded !! 2 = Some (mkTreeEdge 1%Q 0 0%Q 1 3) /\
  nodes expanded !! 3 = Some (mkTreeNode None [] 1) /\
  (visit_count <$> edges grown !! 10) = Some 1 /\
  (parent <$> edges grown !! 10) = Some 3 /\
  (visit_count <$> edges grown !! 2) = Some 0.
Proof. vm_compute. repeat split. Qed.

(** * The further properties at work on the countdown game *)

Lemma allocated_initial st : allocated (initial st).
Proof. apply (bool_decide_unpack _). vm_compute. reflexivity. Qed.

Lemma allocated_expanded : allocated expanded.
Proof. apply (bool_decide_unpack _). vm_compute. reflexivity. Qed.

Lemma allocated_expanded1 : allocated expanded1.
Proof. apply (bool_decide_unpack _). vm_compute. reflexivity. Qed.

(** Two more iterations from [expanded]: the edge 0 is still there. *)
Lemma fit_only_grows_witness :
  root (fst (fit 20 2 expanded)) = 0 /\
  exists ed, edges (fst (fit 20 2 expanded)) !! 0 = Some ed /\
    prior ed = (1 # 2)%Q /\ parent ed = 0 /\ child ed = 1 /\
    0 <= visit_count ed.
Proof.
  destruct (fit_only_grows 20 2 expanded allocated_expanded) as (Hr & _ & He).
  split; [exact Hr|].
  apply (He 0 (mkTreeEdge (1 # 2)%Q 0 0%Q 0 1)). vm_compute. reflexivity.
Defined.

(** One iteration from [expanded]. *)
Lemma fit_once_single_reward_witness :
  exists (r : Q) (l : list nat),
    NoDup l /\
    forall j ed, edges expanded !! j = Some ed ->
      edges (fst (_fit 20 expanded)) !! j =
        Some (if bool_decide (j ∈ l) then bump r ed else ed).
Proof.
  apply (fit_once_single_reward 20 expanded (fst (_fit 20 expanded))).
  - exact allocated_expanded.
  - vm_compute. reflexivity.
Defined.

(** The root in the state 3 has two legal actions, the root in the
    state 0 has none. *)
Lemma expand_twice_witness :
  expand 0 (fst (expand 0 (initial 3))) =
    (fst (expand 0 (initial 3)), Raise AssertionError) /\
  expand 0 (fst (expand 0 (initial 0))) = (fst (expand 0 (initial 0)), Ok tt).
Proof.
  split.
  - refine (expand_twice (initial 3) (fst (expand 0 (initial 3))) 0
              (mkTreeNode None [] 3) (allocated_initial 3) _ _).
    + reflexivity.
    + vm_compute. reflexivity.
  - refine (expand_twice (initial 0) (fst (expand 0 (initial 0))) 0
              (mkTreeNode None [] 0) (allocated_initial 0) _ _).
    + reflexivity.
    + vm_compute. reflexivity.
Defined.

Lemma expanded_terminal_iff_finished_witness :
  exists b,
    is_terminal 0 (fst (expand 0 (initial 3))) = (fst (expand 0 (initial 3)), Ok b) /\
    is_finish 0 (fst (expand 0 (initial 3))) = (fst (expand 0 (initial 3)), Ok b).
Proof.
  apply (expanded_terminal_iff_finished (initial 3)).
  - apply allocated_initial.
  - vm_compute. reflexivity.
Defined.

Lemma traverse_after_expand_witness :
  exists cs,
    traverse 2 0 (fst (expand 0 (initial 3))) = (fst (expand 0 (initial 3)), Ok (0 :: cs)) /\
    length cs = 2.
Proof.
  destruct (traverse_after_expand 0 (initial 3) (fst (expand 0 (initial 3))) 0
              (mkTreeNode None [] 3)) as (cs & Htr & Hlen & _).
  - apply allocated_initial.
  - reflexivity.
  - vm_compute. reflexivity.
  - exists cs. split; [exact Htr|exact Hlen].
Defined.

(** [turn] on [three_children] returns the node 2. *)
Lemma turn_again_witness :
  turn 0 (fst (turn 0 three_children)) = (fst (turn 0 three_children), Ok 2).
Proof.
  apply (turn_again three_children 0).
  - vm_compute. reflexivity.
  - discriminate.
Defined.

Lemma traverse_after_turn_witness :
  traverse 1 2 (fst (turn 0 three_children)) = (fst (turn 0 three_children), Ok [2]).
Proof.
  apply (traverse_after_turn 0 three_children 0).
  vm_compute. reflexivity.
Defined.

Lemma expansion_keeps_statistics_witness :
  exists s2, expansion 0 (initial 3) = (s2, Ok tt) /\ root s2 = 0.
Proof.
  destruct (expansion_keeps_statistics (initial 3) 0 (mkTreeNode None [] 3))
    as (s2 & Hrun & Hr & _).
  - apply allocated_initial.
  - reflexivity.
  - reflexivity.
  - exists s2. split; [exact Hrun|exact Hr].
Defined.

(** The roll-out below the root of [expanded] picks the edge 0 and ends
    with the reward 1/4. *)
Lemma simulation_rewards_finished_node_witness :
  exists nd final fnd sn,
    nodes expanded !! 0 = Some nd /\ 0 ∈ children nd /\
    nodes (fst (simulation 20 0 expanded)) !! final = Some fnd /\
    available (payload fnd) = [] /\
    nodes (fst (simulation 20 0 expanded)) !! 0 = Some sn /\
    (1 # 4)%Q = get_reward (payload fnd) (node_turn (payload sn)).
Proof.
  apply (simulation_rewards_finished_node 20 0 expanded).
  vm_compute. reflexivity.
Defined.

(** Below the root of [expanded1] the edge 0 leads to the node 1, which
    is finished. *)
Lemma simulation_at_finished_child_witness :
  (1 # 4)%Q = get_reward 0 (node_turn 1).
Proof.
  apply (simulation_at_finished_child 20 0 expanded1
           (fst (simulation 20 0 expanded1)) 0 (1 # 4)%Q
           (mkTreeNode None [0; 1] 1) (mkTreeEdge (1 # 2)%Q 0 0%Q 0 1)
           (mkTreeNode (Some 0) [] 0)).
  - exact allocated_expanded1.
  - vm_compute. reflexivity.
  - vm_compute. reflexivity.
  - vm_compute. reflexivity.
  - vm_compute. reflexivity.
  - reflexivity.
Defined.

(** The selection walk from the root of [grown] stops at the node 4. *)
Lemma select_stops_at_leaf_witness :
  exists nd, nodes grown !! 4 = Some nd /\ children nd = [].
Proof.
  apply (proj2 (select_stops_at_leaf 20 0 grown) 4).
  vm_compute. reflexivity.
Defined.

(** * The properties at work on floats *)

Import FloatExample.

(** ** The order of floats

    [<=] on floats is total and transitive away from NaN, by the
    specification of the comparison of binary64 floats. *)

Lemma SFleb_total (a b : spec_float) :
  SFleb a a = true -> SFleb b b = true -> SFleb a b = true \/ SFleb b a = true.
Proof.
  unfold SFleb, SFcompare.
  destruct a as [[]|[]| |[] ma ea], b as [[]|[]| |[] mb eb];
    intros Ha Hb; try discriminate; auto;
    change (Pos.compare_cont Eq) with Pos.compare;
    destruct (Z.compare_spec ea eb), (Z.compare_spec eb ea);
    try lia; simpl; auto;
    destruct (Pos.compare_spec ma mb), (Pos.compare_spec mb ma);
    try lia; simpl; auto.
Qed.

Lemma SFleb_trans (a b c : spec_float) :
  SFleb a b = true -> SFleb b c = true -> SFleb a c = true.
Proof.
  unfold SFleb, SFcompare.
  destruct a as [[]|[]| |[] ma ea], b as [[]|[]| |[] mb eb], c as [[]|[]| |[] mc ec];
    intros Hab Hbc; try discriminate; try reflexivity;
    change (Pos.compare_cont Eq) with Pos.compare in *;
    destruct (Z.compare_spec ea eb), (Z.compare_spec eb ec), (Z.compare_spec ea ec);
    try lia; try discriminate; try reflexivity;
    destruct (Pos.compare_spec ma mb), (Pos.compare_spec mb mc),
      (Pos.compare_spec ma mc);
    try lia; try discriminate; try reflexivity.
Qed.

(** A list of floats without NaN is comparable. *)
Lemma float_comparable (l : list float) :
  (forall a, a ∈ l -> leb a a = true) -> comparable l.
Proof.
  intros Hl. split.
  - intros a b Ha Hb. simpl. rewrite !leb_spec. apply SFleb_total.
    + rewrite <- leb_spec. by apply Hl.
    + rewrite <- leb_spec. by apply Hl.
  - intros a b c _ _ _. simpl. rewrite !leb_spec. apply SFleb_trans.
Qed.

(** With a NaN among the scores, [np.argmax] returns the index of the
    first NaN and [np.max] returns NaN. *)
Lemma argmax_on_nan :
  argmax [1; nan; 2]%float = Ok 1 /\ np_max [1; nan; 2]%float = Ok nan.
Proof. split; vm_compute; reflexivity. Qed.

(** ** turn *)

(** The node 1 of [three_children] is not equal to the root.  The
    averages under the root are 0.2, 0.9 and 0.5: [turn] returns the
    child node of the second edge, and empties its children.  So it
    does on floats, where the averages are 0.25, 1.75 / 2 and 0.5 and
    none is NaN. *)
Lemma turn_commits_witness :
  turn 1 three_children = (three_children, Raise AssertionError) /\
  (exists s', turn 0 three_children = (s', Ok 2) /\
     nodes s' !! 2 = Some (mkTreeNode (Some 1) [] 3) /\ root s' = 0) /\
  (exists s', turn 0 (float_children 0.25 1.75 0.5) = (s', Ok 2) /\
     nodes s' !! 2 = Some (mkTreeNode (Some 1) [] 3) /\ root s' = 0).
Proof.
  split; [|split].
  - destruct (turn_commits three_children 1
                (mkTreeNode None [0; 1; 2] 5) (mkTreeNode (Some 0) [] 4)
                []) as [Hreject _].
    + vm_compute. reflexivity.
    + vm_compute. reflexivity.
    + apply Hreject. reflexivity.
  - set (e0 := mkTreeEdge (1 # 2)%Q 0 (1 # 5)%Q 0 1).
    set (e1 := mkTreeEdge (1 # 3)%Q 1 (9 # 5)%Q 0 2).
    set (e2 := mkTreeEdge (1 # 3)%Q 0 (1 # 2)%Q 0 3).
    destruct (turn_commits three_children 0
                (mkTreeNode None [0; 1; 2] 5) (mkTreeNode None [0; 1; 2] 5)
                [e0; e1; e2]) as [_ Hcommit].
    { vm_compute. reflexivity. }
    { vm_compute. reflexivity. }
    destruct Hcommit
      as (i & action & aed & cn & s' & _ & _ & Hi & Hmax & _ & Hcn & Hturn & Hnodes & _ & Hroot).
    { reflexivity. }
    { discriminate. }
    { repeat constructor. }
    { apply comparableb_spec. vm_compute. reflexivity. }
    { intros ed Hed. repeat (apply elem_of_cons in Hed as [->|Hed]);
        [by eexists..|by apply not_elem_of_nil in Hed]. }
    assert (He1 : e1 ∈ [e0; e1; e2]) by (apply elem_of_cons; right; apply elem_of_cons; by left).
    destruct i as [|[|[|i]]]; simpl in Hi; try discriminate; injection Hi as <-.
    + specialize (Hmax e1 He1). vm_compute in Hmax. discriminate.
    + exists s'. split; [exact Hturn|]. split; [|exact Hroot].
      rewrite Hnodes. vm_compute in Hcn. injection Hcn as <-. apply lookup_insert_eq.
    + specialize (Hmax e1 He1). vm_compute in Hmax. discriminate.
  - set (e0 := mkTreeEdge 0.5%float 0 0.25%float 0 1).
    set (e1 := mkTreeEdge 0.25%float 1 1.75%float 0 2).
    set (e2 := mkTreeEdge 0.25%float 0 0.5%float 0 3).
    destruct (turn_commits (float_children 0.25 1.75 0.5) 0
                (mkTreeNode None [0; 1; 2] 5) (mkTreeNode None [0; 1; 2] 5)
                [e0; e1; e2]) as [_ Hcommit].
    { vm_compute. reflexivity. }
    { vm_compute. reflexivity. }
    destruct Hcommit
      as (i & action & aed & cn & s' & _ & _ & Hi & Hmax & _ & Hcn & Hturn & Hnodes & _ & Hroot).
    { reflexivity. }
    { discriminate. }
    { repeat constructor. }
    { apply float_comparable. intros a Ha.
      repeat (apply elem_of_cons in Ha as [->|Ha]);
        [vm_compute; reflexivity..|by apply not_elem_of_nil in Ha]. }
    { intros ed Hed. repeat (apply elem_of_cons in Hed as [->|Hed]);
        [by eexists..|by apply not_elem_of_nil in Hed]. }
    assert (He1 : e1 ∈ [e0; e1; e2]) by (apply elem_of_cons; right; apply elem_of_cons; by left).
    destruct i as [|[|[|i]]]; simpl in Hi; try discriminate; injection Hi as <-.
    + specialize (Hmax e1 He1). vm_compute in Hmax. discriminate.
    + exists s'. split; [exact Hturn|]. split; [|exact Hroot].
      rewrite Hnodes. vm_compute in Hcn. injection Hcn as <-. apply lookup_insert_eq.
    + specialize (Hmax e1 He1). vm_compute in Hmax. discriminate.
Defined.

(** ** softmax *)



(** The averages 1, NaN and 2: [turn] returns the child node of the
    second edge, although the third average is larger than the first. *)
Lemma turn_returns_first_nan_witness :
  snd (turn 0 (float_children 1 nan 2)) = Ok 2.
Proof.
  rewrite (turn_returns_first_nan (float_children 1 nan 2) 0
             (mkTreeNode None [0; 1; 2] 5) (mkTreeNode None [0; 1; 2] 5)
             [mkTreeEdge 0.5%float 0 1%float 0 1;
              mkTreeEdge 0.25%float 1 nan 0 2;
              mkTreeEdge 0.25%float 0 2%float 0 3]
             1 (mkTreeEdge 0.25%float 1 nan 0 2) (mkTreeNode (Some 1) [3] 3)).
  - reflexivity.
  - vm_compute. reflexivity.
  - vm_compute. reflexivity.
  - reflexivity.
  - repeat constructor.
  - reflexivity.
  - vm_compute. reflexivity.
  - intros [|j] ed Hj Hed; [|lia]. injection Hed as <-.
    split; vm_compute; reflexivity.
  - vm_compute. reflexivity.
Defined.
